(** * botwhatsapp: the auto-reply engine of [src/bot.js]

    A shallow embedding of the decision logic of class [WhatsAppBot]:
    the keyword table ([this.responses], a JavaScript [Map]), its refresh
    from spreadsheet rows ([loadResponses]), the reply lookup of
    [handleMessage], the group gate ([shouldRespondInGroup]), the default
    reply gate ([shouldSendDefaultReply]) and the placeholder expansion
    ([processDynamicContent]).

    Conventions.
    - A JavaScript string is a sequence of UTF-16 code units.  A [string]
      here stands for a JavaScript string all of whose code units are below
      256 (one [ascii] per code unit, read as Latin-1); [toLowerCase] and
      [trim] are written out for that range.
    - [undefined] / [null] are [None]; JavaScript truthiness is written out
      ([truthy], [truthy_opt]).
    - The transport ([message.getContact()], [message.getChat()],
      [message.reply]) and the clock ([new Date()]) are inputs and outputs
      of the functions: a handler returns the action it takes. *)

From Stdlib Require Import String Ascii List Bool Arith Lia.
From Stdlib Require Import DecimalString.
Import ListNotations.

Open Scope string_scope.

(* ------------------------------------------------------------------ *)
(** ** JavaScript strings *)

Module JSString.

(** [String.prototype.toLowerCase] on one code unit below 256: the letters
    A-Z and the Latin-1 capitals U+00C0..U+00DE (U+00D7, the multiplication
    sign, excepted) move up by 32; everything else is unchanged. *)
Definition toLowerCaseUnit (c : ascii) : ascii :=
  let n := nat_of_ascii c in
  if (((65 <=? n) && (n <=? 90)) || ((192 <=? n) && (n <=? 214))
      || ((216 <=? n) && (n <=? 222)))%nat
  then ascii_of_nat (n + 32) else c.

Fixpoint toLowerCase (s : string) : string :=
  match s with
  | EmptyString => EmptyString
  | String c s' => String (toLowerCaseUnit c) (toLowerCase s')
  end.

(** WhiteSpace and LineTerminator code units below 256: TAB, LF, VT, FF,
    CR, SP and NBSP. *)
Definition isWhiteSpace (c : ascii) : bool :=
  let n := nat_of_ascii c in
  (((9 <=? n) && (n <=? 13)) || (n =? 32) || (n =? 160))%nat.

Definition isEmpty (s : string) : bool :=
  match s with EmptyString => true | String _ _ => false end.

Fixpoint trimStart (s : string) : string :=
  match s with
  | EmptyString => EmptyString
  | String c s' => if isWhiteSpace c then trimStart s' else s
  end.

Fixpoint trimEnd (s : string) : string :=
  match s with
  | EmptyString => EmptyString
  | String c s' =>
      let t := trimEnd s' in
      if isWhiteSpace c && isEmpty t then EmptyString else String c t
  end.

(** [String.prototype.trim]. *)
Definition trim (s : string) : string := trimEnd (trimStart s).

(** [s.includes(pat)]: [pat] occurs in [s] at some position. *)
Fixpoint includes (s pat : string) : bool :=
  String.prefix pat s ||
  match s with
  | EmptyString => false
  | String _ s' => includes s' pat
  end.

(** ToBoolean on a string: only the empty string is falsy. *)
Definition truthy (s : string) : bool := negb (isEmpty s).

(** ToBoolean on a value that is [undefined] or a string. *)
Definition truthy_opt (v : option string) : bool :=
  match v with None => false | Some s => truthy s end.

(** Drop the first [n] code units. *)
Fixpoint drop (n : nat) (s : string) : string :=
  match n, s with
  | O, _ => s
  | S _, EmptyString => EmptyString
  | S k, String _ s' => drop k s'
  end.

(** GetSubstitution for a match without capture groups: in the replacement
    text, [$$] is a dollar sign, [$&] the matched text, [$`] the text before
    the match and [$'] the text after it; every other [$] is literal. *)
Fixpoint getSubstitution (matched before after repl : string) : string :=
  match repl with
  | EmptyString => EmptyString
  | String c tail =>
      match tail with
      | String d rest =>
          if Ascii.eqb c "$" then
            if Ascii.eqb d "$" then String "$" (getSubstitution matched before after rest)
            else if Ascii.eqb d "&" then matched ++ getSubstitution matched before after rest
            else if Ascii.eqb d "`" then before ++ getSubstitution matched before after rest
            else if Ascii.eqb d "'" then after ++ getSubstitution matched before after rest
            else String c (getSubstitution matched before after tail)
          else String c (getSubstitution matched before after tail)
      | EmptyString => String c EmptyString
      end
  end.

(** The scan of [s.replace(new RegExp(pat, 'g'), repl)] for a pattern that
    is a literal, non-empty text: [before] is the part of the subject
    already passed, [skip] the number of code units of the current match
    still to pass.  Matches are found left to right and do not overlap;
    each is replaced by its substitution, computed on the subject itself. *)
Fixpoint replaceScan (pat repl before : string) (skip : nat) (s : string)
  : string :=
  match s with
  | EmptyString => EmptyString
  | String c s' =>
      match skip with
      | S k => replaceScan pat repl (before ++ String c EmptyString) k s'
      | O =>
          if String.prefix pat s
          then getSubstitution pat before (drop (String.length pat) s) repl
               ++ replaceScan pat repl (before ++ String c EmptyString)
                    (String.length pat - 1) s'
          else String c
                 (replaceScan pat repl (before ++ String c EmptyString) 0 s')
      end
  end.

Definition replaceAll (pat repl s : string) : string :=
  replaceScan pat repl EmptyString 0 s.

(** [n.toString()] for a non-negative integer. *)
Definition toString (n : nat) : string :=
  NilEmpty.string_of_uint (Nat.to_uint n).

End JSString.

(* ------------------------------------------------------------------ *)
(** ** JavaScript [Map] with string keys and string values

    A [Map] iterates in insertion order; [set] on a key that is present
    keeps the key's position and replaces its value. *)

Module JSMap.

Definition t := list (string * string).

Definition empty : t := [].

Fixpoint get (m : t) (k : string) : option string :=
  match m with
  | [] => None
  | (k', v) :: m' => if String.eqb k' k then Some v else get m' k
  end.

Fixpoint set (m : t) (k v : string) : t :=
  match m with
  | [] => [(k, v)]
  | (k', v') :: m' =>
      if String.eqb k' k then (k', v) :: m' else (k', v') :: set m' k v
  end.

Definition clear (m : t) : t := [].

Definition entries (m : t) : list (string * string) := m.

Definition size (m : t) : nat := List.length m.

(** The entries that iteration visits before it reaches key [k]. *)
Fixpoint entries_before (m : t) (k : string) : list (string * string) :=
  match m with
  | [] => []
  | (k', v) :: m' =>
      if String.eqb k' k then [] else (k', v) :: entries_before m' k
  end.

(** The primitive mutations of a [Map] object, for the places where the
    order of mutations is looked at. *)
Inductive op : Type :=
| Clear
| Set_ (k v : string).

Definition apply_op (m : t) (o : op) : t :=
  match o with
  | Clear => clear m
  | Set_ k v => set m k v
  end.

Definition apply_ops (m : t) (os : list op) : t := fold_left apply_op os m.

End JSMap.

(* ------------------------------------------------------------------ *)
(** ** The bot *)

Module Bot.

Import JSString.

(** [config.groupSettings] (lines 311-318). *)
Record GroupSettings : Type := {
  respondToAll : bool;
  respondOnlyWhenMentioned : bool;
  adminOnly : bool;
  allowedGroups : list string;
  sendDefaultReplyInGroups : bool
}.

(** The fields of [config] (lines 297-323) that are not transport
    settings.  [caseSensitive] and [partialMatch] are set there and read
    nowhere in the class. *)
Record Config : Type := {
  hasHeader : bool;
  defaultReply : option string;
  groupSettings : GroupSettings;
  caseSensitive : bool;
  partialMatch : bool
}.

(** The configuration with [caseSensitive] set to [flag] and every other
    field as it is. *)
Definition with_caseSensitive (flag : bool) (cfg : Config) : Config :=
  {| hasHeader := hasHeader cfg;
     defaultReply := defaultReply cfg;
     groupSettings := groupSettings cfg;
     caseSensitive := flag;
     partialMatch := partialMatch cfg |}.

Record Participant : Type := {
  pid : string;            (* p.id._serialized *)
  isAdmin : bool
}.

Record Chat : Type := {
  isGroup : bool;
  chatName : string;       (* chat.name *)
  chatId : string;         (* chat.id._serialized *)
  participants : list Participant
}.

Record Message : Type := {
  from : string;
  fromMe : bool;
  body : string;
  mentionedIds : list string;
  author : option string
}.

Record Contact : Type := {
  name : option string;
  pushname : option string;
  number : string
}.

(** What [new Date()] renders to at the time of the reply. *)
Record Clock : Type := {
  localeTime : string;     (* now.toLocaleTimeString() *)
  localeDate : string      (* now.toLocaleDateString() *)
}.

(** The keyword normalisation written at lines 60, 104 and 228:
    [.toLowerCase().trim()]. *)
Definition normalize (s : string) : string := trim (toLowerCase s).

(** *** loadResponses (lines 43-69) *)

(** The result of [await this.sheets.spreadsheets.values.get(...)]: the
    call throws, or yields [response.data.values], which is [undefined]
    for an empty range and otherwise an array of rows of cells. *)
Inductive FetchResult : Type :=
| FetchError
| FetchOk (values : option (list (list string))).

(** One turn of the loop at lines 57-62: [const [keyword, reply] = rows[i]]
    takes the first two cells, [undefined] where the row is shorter. *)
Definition row_ops (row : list string) : list JSMap.op :=
  let keyword := nth_error row 0 in
  let reply := nth_error row 1 in
  match keyword, reply with
  | Some k, Some r =>
      if truthy k && truthy r
      then [JSMap.Set_ (normalize k) (trim r)]
      else []
  | _, _ => []
  end.

Definition startRow (cfg : Config) : nat := if hasHeader cfg then 1 else 0.

(** Lines 52-62: [this.responses.clear()], then the loop from [startRow]. *)
Definition rebuild_ops (cfg : Config) (rows : list (list string))
  : list JSMap.op :=
  JSMap.Clear :: flat_map row_ops (skipn (startRow cfg) rows).

(** How a block of statements ends. *)
Inductive Completion : Type :=
| Normal
| Thrown.

(** The [try] block of lines 44-65: the mutations it performs on the
    [Map] object [this.responses], and how it ends.  When the fetch fails,
    the [await] of line 45 throws before any statement touches the table. *)
Definition loadResponses_try (cfg : Config) (fetch : FetchResult)
  : list JSMap.op * Completion :=
  match fetch with
  | FetchError => ([], Thrown)
  | FetchOk None => ([], Normal)
  | FetchOk (Some rows) =>
      (if (0 <? List.length rows)%nat then rebuild_ops cfg rows else [],
       Normal)
  end.

(** The mutations one call of [loadResponses] performs. *)
Definition loadResponses_ops (cfg : Config) (fetch : FetchResult)
  : list JSMap.op :=
  fst (loadResponses_try cfg fetch).

(** How the call ends: the [catch] block of lines 66-68 logs the error
    and falls through. *)
Definition loadResponses_completion (cfg : Config) (fetch : FetchResult)
  : Completion :=
  match snd (loadResponses_try cfg fetch) with
  | Normal => Normal
  | Thrown => Normal
  end.

(** The table after the call, from the table before it. *)
Definition loadResponses (cfg : Config) (fetch : FetchResult)
  (responses : JSMap.t) : JSMap.t :=
  JSMap.apply_ops responses (loadResponses_ops cfg fetch).

(** *** addResponse (lines 227-230) *)
Definition addResponse (keyword reply : string) (responses : JSMap.t)
  : JSMap.t :=
  JSMap.set responses (normalize keyword) (trim reply).

(** *** shouldRespondInGroup (lines 156-175)

    The result is used only through [!] at line 117; it is given as its
    truth value ([participant && participant.isAdmin] is [undefined] when
    no participant is found). *)
Definition isAuthor (message : Message) (p : Participant) : bool :=
  match author message with
  | Some a => String.eqb (pid p) a
  | None => false
  end.

Definition shouldRespondInGroup (cfg : Config) (chat : Chat)
  (message : Message) : bool :=
  let gs := groupSettings cfg in
  if respondOnlyWhenMentioned gs then
    (0 <? List.length (mentionedIds message))%nat
  else if (0 <? List.length (allowedGroups gs))%nat then
    existsb (String.eqb (chatId chat)) (allowedGroups gs)
  else if adminOnly gs then
    match find (isAuthor message) (participants chat) with
    | Some participant => isAdmin participant
    | None => false
    end
  else respondToAll gs.

(** *** addToAllowedGroups, removeFromAllowedGroups (lines 257-270)

    Both change [config.groupSettings.allowedGroups] and nothing else:
    [push] when the id is not in the list, [splice] at the first index of
    the id when it is. *)
Definition with_allowedGroups (l : list string) (cfg : Config) : Config :=
  {| hasHeader := hasHeader cfg;
     defaultReply := defaultReply cfg;
     groupSettings :=
       {| respondToAll := respondToAll (groupSettings cfg);
          respondOnlyWhenMentioned :=
            respondOnlyWhenMentioned (groupSettings cfg);
          adminOnly := adminOnly (groupSettings cfg);
          allowedGroups := l;
          sendDefaultReplyInGroups :=
            sendDefaultReplyInGroups (groupSettings cfg) |};
     caseSensitive := caseSensitive cfg;
     partialMatch := partialMatch cfg |}.

Fixpoint remove_first (groupId : string) (l : list string) : list string :=
  match l with
  | [] => []
  | g :: l' => if String.eqb g groupId then l' else g :: remove_first groupId l'
  end.

Definition addToAllowedGroups (groupId : string) (cfg : Config) : Config :=
  let l := allowedGroups (groupSettings cfg) in
  if existsb (String.eqb groupId) l then cfg
  else with_allowedGroups (l ++ [groupId])%list cfg.

Definition removeFromAllowedGroups (groupId : string) (cfg : Config)
  : Config :=
  let l := allowedGroups (groupSettings cfg) in
  if existsb (String.eqb groupId) l
  then with_allowedGroups (remove_first groupId l) cfg
  else cfg.

(** *** shouldSendDefaultReply (lines 178-183) *)
Definition shouldSendDefaultReply (cfg : Config) (chat : Chat) : bool :=
  if isGroup chat then sendDefaultReplyInGroups (groupSettings cfg)
  else true.

(** *** processDynamicContent (lines 186-204) *)

(** [a || b] where [a] is [undefined] or a string. *)
Definition or_else (a : option string) (b : string) : string :=
  match a with
  | Some s => if truthy s then s else b
  | None => b
  end.

(** The object literal [replacements], in the order of its keys. *)
Definition replacements (contact : Contact) (message : Message)
  (chat : Chat) (now : Clock) : list (string * string) :=
  [ ("{name}", or_else (name contact) (or_else (pushname contact) "there"));
    ("{time}", localeTime now);
    ("{date}", localeDate now);
    ("{phone}", number contact);
    ("{message}", body message);
    ("{group}", if isGroup chat then chatName chat else "Direct Message");
    ("{memberCount}",
      if isGroup chat then toString (List.length (participants chat))
      else "1") ].

(** The keys of [replacements]. *)
Definition placeholders : list string :=
  ["{name}"; "{time}"; "{date}"; "{phone}"; "{message}"; "{group}";
   "{memberCount}"].

(** One turn of the loop at lines 199-201. *)
Definition replace_step (processedReply : string) (e : string * string)
  : string :=
  replaceAll (fst e) (snd e) processedReply.

Definition processDynamicContent (reply : string) (contact : Contact)
  (message : Message) (chat : Chat) (now : Clock) : string :=
  fold_left replace_step (replacements contact message chat now) reply.

(** *** handleMessage (lines 96-153) *)

(** Lines 125-136: the value of the variable [reply] after the exact
    lookup and the scan for a partial match. *)
Definition lookupReply (responses : JSMap.t) (messageBody : string)
  : option string :=
  let reply := JSMap.get responses messageBody in
  if negb (truthy_opt reply) then
    match find (fun e => includes messageBody (fst e))
               (JSMap.entries responses) with
    | Some (_, response) => Some response
    | None => reply
    end
  else reply.

(** What one call of [handleMessage] does, by the place where it ends. *)
Inductive Outcome : Type :=
| SkippedBroadcast                 (* return at line 99 *)
| SkippedSelf                      (* return at line 102 *)
| SkippedGroup                     (* return at line 118 *)
| Replied (text : string)          (* message.reply at line 143 *)
| DefaultReplied (text : string)   (* message.reply at line 146 *)
| NoReply.                         (* neither branch of lines 139-148 *)

(** Lines 145-148: the [else if] branch taken when [reply] is falsy. *)
Definition defaultBranch (cfg : Config) (chat : Chat) : Outcome :=
  match defaultReply cfg with
  | Some d =>
      if truthy d && shouldSendDefaultReply cfg chat
      then DefaultReplied d else NoReply
  | None => NoReply
  end.

Definition handleMessage (cfg : Config) (responses : JSMap.t) (now : Clock)
  (message : Message) (contact : Contact) (chat : Chat) : Outcome :=
  if String.eqb (from message) "status@broadcast" then SkippedBroadcast
  else if fromMe message then SkippedSelf
  else
    let messageBody := normalize (body message) in
    if isGroup chat && negb (shouldRespondInGroup cfg chat message)
    then SkippedGroup
    else
      let reply := lookupReply responses messageBody in
      match reply with
      | Some r =>
          if truthy r
          then Replied (processDynamicContent r contact message chat now)
          else defaultBranch cfg chat
      | None => defaultBranch cfg chat
      end.

End Bot.

(* ------------------------------------------------------------------ *)
(** ** The table as a shared object

    [this.responses] is assigned once, in the constructor (line 16); every
    later use goes through that reference.  The heap holds the [Map]
    objects; a reader that has read the field holds the same reference. *)

Module Store.

Definition ref := nat.

Record World : Type := {
  heap : list JSMap.t;
  this_responses : ref
}.

Definition deref (w : World) (r : ref) : option JSMap.t :=
  nth_error (heap w) r.

Fixpoint write (h : list JSMap.t) (r : ref) (m : JSMap.t) : list JSMap.t :=
  match h, r with
  | [], _ => []
  | _ :: h', O => m :: h'
  | x :: h', S r' => x :: write h' r' m
  end.

(** Line 16: [this.responses = new Map()]. *)
Definition construct (h : list JSMap.t) : World :=
  {| heap := h ++ [JSMap.empty]; this_responses := List.length h |}.

(** A method call [this.responses.clear()] or [this.responses.set(k, v)]:
    the object the field refers to is changed; the field is not assigned. *)
Definition mutate (w : World) (o : JSMap.op) : World :=
  match deref w (this_responses w) with
  | Some m =>
      {| heap := write (heap w) (this_responses w) (JSMap.apply_op m o);
         this_responses := this_responses w |}
  | None => w
  end.

Definition run_ops (w : World) (os : list JSMap.op) : World :=
  fold_left mutate os w.

(** One call of [loadResponses] on the world. *)
Definition loadResponses (cfg : Bot.Config) (fetch : Bot.FetchResult)
  (w : World) : World :=
  run_ops w (Bot.loadResponses_ops cfg fetch).

(** The worlds a sequence of mutations passes through, the first and the
    last included. *)
Fixpoint trace (w : World) (os : list JSMap.op) : list World :=
  w :: match os with
       | [] => []
       | o :: os' => trace (mutate w o) os'
       end.

End Store.

(* ------------------------------------------------------------------ *)
(** ** The event loop

    Lines 50-65 of [loadResponses] (after the [await] of the fetch) and
    lines 125-136 of [handleMessage] contain no [await]: each is one
    synchronous block, which JavaScript runs to completion before any
    other block starts.  A schedule is the order in which such blocks
    run. *)

Module EventLoop.

Inductive Task : Type :=
| Refresh (fetch : Bot.FetchResult)
| Lookup (messageBody : string).

(** The table each lookup of the schedule reads, in order. *)
Fixpoint observed (cfg : Bot.Config) (tasks : list Task)
  (responses : JSMap.t) : list JSMap.t :=
  match tasks with
  | [] => []
  | Refresh fetch :: rest =>
      observed cfg rest (Bot.loadResponses cfg fetch responses)
  | Lookup _ :: rest => responses :: observed cfg rest responses
  end.

(** The value of [reply] each lookup of the schedule computes. *)
Fixpoint replies (cfg : Bot.Config) (tasks : list Task)
  (responses : JSMap.t) : list (option string) :=
  match tasks with
  | [] => []
  | Refresh fetch :: rest =>
      replies cfg rest (Bot.loadResponses cfg fetch responses)
  | Lookup messageBody :: rest =>
      Bot.lookupReply responses messageBody :: replies cfg rest responses
  end.

End EventLoop.

(* ------------------------------------------------------------------ *)
(** ** The group gate as the specification words it

    Four modes in a fixed precedence; the first mode whose toggle is set is
    the one evaluated.  The toggle of the allow-list mode is the allow-list
    being non-empty (line 163); the rule of the admin mode is the one of
    lines 169-170. *)

Module GateSpec.

Import Bot.

Inductive Mode : Type :=
| MentionOnly
| AllowListOnly
| AdminOnly
| RespondToAll.

Definition precedence : list Mode :=
  [MentionOnly; AllowListOnly; AdminOnly; RespondToAll].

Definition toggle (gs : GroupSettings) (m : Mode) : bool :=
  match m with
  | MentionOnly => respondOnlyWhenMentioned gs
  | AllowListOnly => negb (Nat.eqb (List.length (allowedGroups gs)) 0)
  | AdminOnly => adminOnly gs
  | RespondToAll => respondToAll gs
  end.

Definition active_mode (gs : GroupSettings) : option Mode :=
  find (toggle gs) precedence.

Definition rule (m : Mode) (cfg : Config) (chat : Chat) (message : Message)
  : bool :=
  match m with
  | MentionOnly =>
      match mentionedIds message with [] => false | _ :: _ => true end
  | AllowListOnly =>
      existsb (String.eqb (chatId chat)) (allowedGroups (groupSettings cfg))
  | AdminOnly =>
      match find (isAuthor message) (participants chat) with
      | Some participant => isAdmin participant
      | None => false
      end
  | RespondToAll => true
  end.

Definition allows (cfg : Config) (chat : Chat) (message : Message) : bool :=
  match active_mode (groupSettings cfg) with
  | Some m => rule m cfg chat message
  | None => false
  end.

End GateSpec.

(* ------------------------------------------------------------------ *)
(** ** Sample data *)

Module Sample.

Import Bot.

Definition settings : GroupSettings :=
  {| respondToAll := true;
     respondOnlyWhenMentioned := false;
     adminOnly := false;
     allowedGroups := [];
     sendDefaultReplyInGroups := false |}.

(** The configuration of lines 297-323 with no environment variable set,
    except that the sheet has no header row and a default reply is set. *)
Definition config : Config :=
  {| hasHeader := false;
     defaultReply := Some "Sorry, I did not get that.";
     groupSettings := settings;
     caseSensitive := false;
     partialMatch := true |}.

(** The same with [CASE_SENSITIVE=true]. *)
Definition config_caseSensitive : Config :=
  {| hasHeader := false;
     defaultReply := Some "Sorry, I did not get that.";
     groupSettings := settings;
     caseSensitive := true;
     partialMatch := true |}.

(** [RESPOND_ONLY_WHEN_MENTIONED=true]; [respondToAll] stays true. *)
Definition config_mention : Config :=
  {| hasHeader := false;
     defaultReply := None;
     groupSettings :=
       {| respondToAll := true;
          respondOnlyWhenMentioned := true;
          adminOnly := false;
          allowedGroups := [];
          sendDefaultReplyInGroups := false |};
     caseSensitive := false;
     partialMatch := true |}.

Definition direct : Chat :=
  {| isGroup := false;
     chatName := "Ann";
     chatId := "491700000000@c.us";
     participants := [] |}.

Definition group : Chat :=
  {| isGroup := true;
     chatName := "Family";
     chatId := "120363000000000000@g.us";
     participants :=
       [ {| pid := "491700000000@c.us"; isAdmin := true |};
         {| pid := "491700000001@c.us"; isAdmin := false |} ] |}.

Definition text (b : string) : Message :=
  {| from := "491700000000@c.us";
     fromMe := false;
     body := b;
     mentionedIds := [];
     author := Some "491700000000@c.us" |}.

Definition ann : Contact :=
  {| name := Some "Ann"; pushname := None; number := "491700000000" |}.

Definition now : Clock :=
  {| localeTime := "10:00:00 AM"; localeDate := "1/1/2025" |}.

Definition rows (l : list (list string)) : FetchResult := FetchOk (Some l).

End Sample.

(* ------------------------------------------------------------------ *)
(** ** Administrative operations and group sends *)

Module Admin.

Import Bot.

(** What the embedding application does to the table between messages:
    a refresh ([loadResponses]) or a manual entry ([addResponse]). *)
Inductive Action : Type :=
| Load (fetch : FetchResult)
| Add (keyword reply : string).

Definition act (cfg : Config) (responses : JSMap.t) (a : Action) : JSMap.t :=
  match a with
  | Load fetch => loadResponses cfg fetch responses
  | Add keyword reply => addResponse keyword reply responses
  end.

(** The table after a sequence of actions on the [Map] of line 16. *)
Definition run (cfg : Config) (actions : list Action) : JSMap.t :=
  fold_left (act cfg) actions JSMap.empty.

(** [getResponses] (lines 233-235). *)
Definition getResponses (responses : JSMap.t) : list (string * string) :=
  JSMap.entries responses.

(** [getStats().totalResponses] (line 240). *)
Definition totalResponses (responses : JSMap.t) : nat :=
  JSMap.size responses.

(** The keys the [set] calls of a sequence of mutations are made with. *)
Definition ops_keys (os : list JSMap.op) : list string :=
  flat_map (fun o => match o with
                     | JSMap.Set_ k _ => [k]
                     | JSMap.Clear => []
                     end) os.

(** A list of keys with every repetition after the first dropped. *)
Definition first_occurrences (ks : list string) : list string :=
  fold_left (fun acc k =>
               if existsb (String.eqb k) acc then acc else (acc ++ [k])%list)
            ks [].

(** [sendToGroup] (lines 272-282): [getChatById] yields the chat or throws
    ([None]); the message goes out only to a group chat.  The result is
    the list of [chat.sendMessage] calls made. *)
Definition sendToGroup (getChatById : string -> option Chat)
  (groupId message : string) : list (Chat * string) :=
  match getChatById groupId with
  | Some chat => if isGroup chat then [(chat, message)] else []
  | None => []
  end.

(** [broadcastToGroups] (lines 285-290): one [sendToGroup] after the
    other, in the order of the allow-list. *)
Definition broadcastToGroups (cfg : Config)
  (getChatById : string -> option Chat) (message : string)
  : list (Chat * string) :=
  flat_map (fun groupId => sendToGroup getChatById groupId message)
           (allowedGroups (groupSettings cfg)).

End Admin.

(* ------------------------------------------------------------------ *)
(** ** The configuration object (lines 297-323)

    [process.env] after [dotenv] has loaded: a variable is unset ([None])
    or a string.  The two numeric settings ([refreshInterval],
    [maxGroupMessages]) go through [parseInt] and are not part of
    [Bot.Config]. *)

Module Env.

Import JSString Bot.

Definition t := string -> option string.

(** [process.env.X === 'true']. *)
Definition is_true (v : option string) : bool :=
  match v with
  | Some s => String.eqb s "true"
  | None => false
  end.

(** [s.split(',')]: the pieces between the commas; there is always at
    least one piece. *)
Fixpoint split_comma (s : string) : list string :=
  match s with
  | EmptyString => [EmptyString]
  | String c s' =>
      if Ascii.eqb c "," then EmptyString :: split_comma s'
      else match split_comma s' with
           | piece :: pieces => String c piece :: pieces
           | [] => [String c EmptyString]
           end
  end.

(** [pieces.join(',')]. *)
Fixpoint join_comma (pieces : list string) : string :=
  match pieces with
  | [] => EmptyString
  | [piece] => piece
  | piece :: rest => piece ++ "," ++ join_comma rest
  end.

Definition config (env : t) : Config :=
  {| hasHeader := true;
     defaultReply :=
       match env "DEFAULT_REPLY" with
       | Some s => if truthy s then Some s else None
       | None => None
       end;
     groupSettings :=
       {| respondToAll := is_true (env "RESPOND_TO_ALL") || true;
          respondOnlyWhenMentioned :=
            is_true (env "RESPOND_ONLY_WHEN_MENTIONED") || false;
          adminOnly := is_true (env "ADMIN_ONLY") || false;
          allowedGroups :=
            match env "ALLOWED_GROUPS" with
            | Some s => if truthy s then split_comma s else []
            | None => []
            end;
          sendDefaultReplyInGroups :=
            is_true (env "SEND_DEFAULT_REPLY_IN_GROUPS") || false |};
     caseSensitive := is_true (env "CASE_SENSITIVE") || false;
     partialMatch := is_true (env "PARTIAL_MATCH") || true |}.

(** An environment given by its list of assignments; the first assignment
    of a name counts. *)
Fixpoint of_list (l : list (string * string)) : t :=
  fun x =>
    match l with
    | [] => None
    | (y, v) :: l' => if String.eqb y x then Some v else of_list l' x
    end.

End Env.

(* ------------------------------------------------------------------ *)
(** ** Predicates used in the invariants *)

(** The text does not begin with white space. *)
Definition starts_clean (s : string) : Prop :=
  match s with
  | EmptyString => True
  | String c _ => JSString.isWhiteSpace c = false
  end.

(** Every key of the table is its own normal form. *)
Definition keys_normal (m : JSMap.t) : Prop :=
  forall k v, In (k, v) m -> Bot.normalize k = k.

(** Text in braces: [{w}]. *)
Definition placeholder_like (w : string) : string := "{" ++ w ++ "}".

(** No brace occurs in [w]. *)
Definition brace_free (w : string) : bool :=
  negb (JSString.includes w "{") && negb (JSString.includes w "}").

(** [{w}] is placeholder-like text that is none of the seven tokens. *)
Definition unrecognized (w : string) : bool :=
  brace_free w &&
  negb (existsb (String.eqb (placeholder_like w)) Bot.placeholders).

(** No value of the list holds a dollar sign. *)
Definition plain_values (l : list (string * string)) : bool :=
  forallb (fun e => negb (JSString.includes (snd e) "$")) l.

(* ------------------------------------------------------------------ *)
(** * Properties *)

Import JSString.
Import Bot.

(** ** Strings *)

Lemma prefix_refl (s : string) : String.prefix s s = true.
Proof.
  induction s as [|c s IH]; simpl; [reflexivity|].
  destruct (ascii_dec c c) as [_|ne]; [exact IH | now elim ne].
Qed.

Lemma prefix_empty (s : string) : String.prefix "" s = true.
Proof. destruct s; reflexivity. Qed.

Lemma includes_unfold (s pat : string) :
  includes s pat =
  String.prefix pat s ||
  match s with EmptyString => false | String _ s' => includes s' pat end.
Proof. destruct s; reflexivity. Qed.

Lemma includes_refl (s : string) : includes s s = true.
Proof. now rewrite includes_unfold, prefix_refl. Qed.

Lemma includes_empty (s : string) : includes s "" = true.
Proof. now rewrite includes_unfold, prefix_empty. Qed.

(** A scan that finds no occurrence copies the subject. *)
Lemma replaceScan_no_match (pat repl : string) :
  forall s before,
    includes s pat = false -> replaceScan pat repl before 0 s = s.
Proof.
  induction s as [|c s IH]; intros before H; [reflexivity|].
  rewrite includes_unfold in H. apply orb_false_iff in H as [Hp Hi].
  cbn [replaceScan]. rewrite Hp. f_equal. now apply IH.
Qed.

Lemma replaceAll_no_match (pat repl s : string) :
  includes s pat = false -> replaceAll pat repl s = s.
Proof. apply replaceScan_no_match. Qed.

(** ** Maps *)

Lemma get_set_same (m : JSMap.t) (k v : string) :
  JSMap.get (JSMap.set m k v) k = Some v.
Proof.
  induction m as [|[k' v'] m IH]; simpl.
  - now rewrite String.eqb_refl.
  - destruct (String.eqb k' k) eqn:E; simpl; rewrite E; [reflexivity | exact IH].
Qed.

Lemma get_set_other (m : JSMap.t) (k k' v : string) :
  k <> k' -> JSMap.get (JSMap.set m k v) k' = JSMap.get m k'.
Proof.
  intros ne. induction m as [|[k0 v0] m IH]; simpl.
  - destruct (String.eqb_spec k k'); [contradiction | reflexivity].
  - destruct (String.eqb_spec k0 k) as [->|n0]; simpl.
    + destruct (String.eqb_spec k k'); [contradiction | reflexivity].
    + destruct (String.eqb_spec k0 k'); [reflexivity | exact IH].
Qed.

Lemma get_In (m : JSMap.t) (k v : string) :
  JSMap.get m k = Some v -> In (k, v) m.
Proof.
  induction m as [|[k0 v0] m IH]; simpl; [discriminate|].
  destruct (String.eqb_spec k0 k) as [->|ne]; intros H.
  - left. congruence.
  - right. now apply IH.
Qed.

(** [find] stops at the first element that passes the test. *)
Lemma find_first {A : Type} (f : A -> bool) (pre post : list A) (x : A) :
  (forall y, In y pre -> f y = false) -> f x = true ->
  find f (pre ++ x :: post) = Some x.
Proof.
  intros Hpre Hx. induction pre as [|y pre IH]; simpl.
  - now rewrite Hx.
  - rewrite (Hpre y (or_introl eq_refl)). apply IH.
    intros z Hz. apply Hpre. now right.
Qed.

Lemma find_none_iff {A : Type} (f : A -> bool) (l : list A) :
  (forall y, In y l -> f y = false) -> find f l = None.
Proof.
  induction l as [|y l IH]; intros H; simpl; [reflexivity|].
  rewrite (H y (or_introl eq_refl)). apply IH. intros z Hz. apply H. now right.
Qed.

(** ** The reply lookup *)

(** An exact match whose stored reply is not empty is the value of
    [reply]; the scan is not entered. *)
Lemma lookupReply_exact (responses : JSMap.t) (messageBody r : string) :
  JSMap.get responses messageBody = Some r -> truthy r = true ->
  lookupReply responses messageBody = Some r.
Proof.
  intros Hget Hr. unfold lookupReply. rewrite Hget. simpl. now rewrite Hr.
Qed.

(** Without an exact match the scan decides. *)
Lemma lookupReply_scan (responses : JSMap.t) (messageBody : string) :
  JSMap.get responses messageBody = None ->
  lookupReply responses messageBody =
  option_map snd (find (fun e => includes messageBody (fst e)) responses).
Proof.
  intros Hget. unfold lookupReply, JSMap.entries. rewrite Hget. simpl.
  destruct (find _ responses) as [[k v]|]; reflexivity.
Qed.

(** Without an exact match, the first entry in iteration order whose key
    occurs in the body gives the value of [reply]. *)
Lemma lookupReply_first_partial (responses : JSMap.t) (messageBody : string)
  (pre : list (string * string)) (k v : string)
  (post : list (string * string)) :
  JSMap.get responses messageBody = None ->
  JSMap.entries responses = (pre ++ (k, v) :: post)%list ->
  (forall e, In e pre -> includes messageBody (fst e) = false) ->
  includes messageBody k = true ->
  lookupReply responses messageBody = Some v.
Proof.
  intros Hget Hent Hpre Hk.
  rewrite (lookupReply_scan _ _ Hget).
  unfold JSMap.entries in Hent. rewrite Hent.
  now rewrite (find_first _ pre post (k, v) Hpre Hk).
Qed.

(** No key occurs in the body: [reply] stays [undefined]. *)
Lemma lookupReply_no_match (responses : JSMap.t) (messageBody : string) :
  (forall k v, In (k, v) (JSMap.entries responses) ->
               includes messageBody k = false) ->
  lookupReply responses messageBody = None.
Proof.
  intros Hno. unfold JSMap.entries in Hno.
  assert (Hget : JSMap.get responses messageBody = None).
  { destruct (JSMap.get responses messageBody) as [v|] eqn:E; [|reflexivity].
    apply get_In in E. apply Hno in E.
    rewrite includes_refl in E. discriminate. }
  rewrite (lookupReply_scan _ _ Hget).
  rewrite find_none_iff; [reflexivity|].
  intros [k v] Hin. simpl. exact (Hno k v Hin).
Qed.

(** The handler past its three early returns. *)
Lemma handleMessage_past_gates (cfg : Config) (responses : JSMap.t)
  (now : Clock) (message : Message) (contact : Contact) (chat : Chat) :
  from message <> "status@broadcast" ->
  fromMe message = false ->
  isGroup chat && negb (shouldRespondInGroup cfg chat message) = false ->
  handleMessage cfg responses now message contact chat =
  match lookupReply responses (normalize (body message)) with
  | Some r =>
      if truthy r
      then Replied (processDynamicContent r contact message chat now)
      else defaultBranch cfg chat
  | None => defaultBranch cfg chat
  end.
Proof.
  intros Hfrom Hme Hgate. unfold handleMessage.
  destruct (String.eqb_spec (from message) "status@broadcast");
    [contradiction|].
  now rewrite Hme, Hgate.
Qed.

(** ** Exact and partial match *)

(** C1 (the code departs from the claim).  Rows [h -> x] and
    [hi -> " "] (a reply cell holding one space) pass the test of line 59;
    the second is stored as [hi -> ""].  For the body [hi] the exact lookup
    of line 126 finds the empty reply, line 129 takes it for no match, and
    the scan returns the reply of the substring key [h]: a partial match is
    preferred over the exact one.  (When the stored reply is not empty
    the exact match does win: [lookupReply_exact].) *)
Theorem exact_match_blank_reply_loses :
  let responses :=
    loadResponses Sample.config
      (Sample.rows [["h"; "x"]; ["hi"; " "]]) JSMap.empty in
  JSMap.entries responses = [("h", "x"); ("hi", "")] /\
  JSMap.get responses (normalize "hi") = Some "" /\
  lookupReply responses (normalize "hi") = Some "x" /\
  handleMessage Sample.config responses Sample.now (Sample.text "hi")
    Sample.ann Sample.direct = Replied "x".
Proof. vm_compute. repeat split. Qed.

(** X21.  When the exact lookup finds nothing, the value of [reply] is the
    reply of the first entry, in the iteration order of the table, whose
    key occurs in the normalized body; the handler sends it (expanded) when
    it is not empty.  A table rebuilt from the rows [cat], [category] in
    that order answers the body [category sale] with the reply of [cat]. *)
Theorem partial_match_first_in_order :
  (forall (responses : JSMap.t) (messageBody : string) pre k v post,
      JSMap.get responses messageBody = None ->
      JSMap.entries responses = (pre ++ (k, v) :: post)%list ->
      (forall e, In e pre -> includes messageBody (fst e) = false) ->
      includes messageBody k = true ->
      lookupReply responses messageBody = Some v)
  /\
  (forall cfg (responses : JSMap.t) now message contact chat pre k v post,
      from message <> "status@broadcast" ->
      fromMe message = false ->
      isGroup chat && negb (shouldRespondInGroup cfg chat message) = false ->
      JSMap.get responses (normalize (body message)) = None ->
      JSMap.entries responses = (pre ++ (k, v) :: post)%list ->
      (forall e, In e pre ->
                 includes (normalize (body message)) (fst e) = false) ->
      includes (normalize (body message)) k = true ->
      truthy v = true ->
      handleMessage cfg responses now message contact chat =
      Replied (processDynamicContent v contact message chat now))
  /\
  (forall cfg ra rb old,
      hasHeader cfg = false -> truthy ra = true ->
      lookupReply
        (loadResponses cfg (Sample.rows [["cat"; ra]; ["category"; rb]]) old)
        (normalize "category sale") = Some (trim ra)).
Proof.
  split; [exact lookupReply_first_partial | split].
  - intros cfg responses now message contact chat pre k v post
           Hfrom Hme Hgate Hget Hent Hpre Hk Hv.
    rewrite (handleMessage_past_gates _ _ _ _ _ _ Hfrom Hme Hgate).
    rewrite (lookupReply_first_partial _ _ _ _ _ _ Hget Hent Hpre Hk).
    now rewrite Hv.
  - intros cfg ra rb old Hh Hra.
    unfold loadResponses, loadResponses_ops, loadResponses_try,
      Sample.rows, rebuild_ops, startRow.
    rewrite Hh. cbn [List.length Nat.ltb Nat.leb skipn flat_map row_ops
                     nth_error app fst].
    rewrite Hra. destruct (truthy "cat") eqn:Hc; [|discriminate Hc].
    destruct (truthy "category") eqn:Hcat; [|discriminate Hcat].
    cbn [andb]. destruct (truthy rb); reflexivity.
Qed.

Lemma partial_match_first_in_order_witness :
  lookupReply [("cat", "A"); ("category", "B")] "category sale" = Some "A"
  /\ handleMessage Sample.config [("cat", "A"); ("category", "B")] Sample.now
       (Sample.text "Category Sale") Sample.ann Sample.direct = Replied "A"
  /\ lookupReply
       (loadResponses Sample.config
          (Sample.rows [["cat"; "A"]; ["category"; "B"]]) [("old", "o")])
       (normalize "category sale") = Some (trim "A").
Proof.
  split; [|split].
  - apply (proj1 partial_match_first_in_order
             [("cat", "A"); ("category", "B")] "category sale"
             [] "cat" "A" [("category", "B")]).
    + reflexivity.
    + reflexivity.
    + intros e [].
    + reflexivity.
  - apply (proj1 (proj2 partial_match_first_in_order)
             Sample.config [("cat", "A"); ("category", "B")] Sample.now
             (Sample.text "Category Sale") Sample.ann Sample.direct
             [] "cat" "A" [("category", "B")]).
    + discriminate.
    + reflexivity.
    + reflexivity.
    + reflexivity.
    + reflexivity.
    + intros e [].
    + reflexivity.
    + reflexivity.
  - apply (proj2 (proj2 partial_match_first_in_order)
             Sample.config "A" "B" [("old", "o")]); reflexivity.
Defined.

(** ** Normalization and the [caseSensitive] setting *)

(** C3, as stated, fails: with [caseSensitive] true the keyword [Hello] is
    stored under [hello] (so normalization is not trimming only) and the
    body [hello] matches it exactly. *)
Lemma caseSensitive_not_consulted_cex :
  caseSensitive Sample.config_caseSensitive = true /\
  normalize "Hello" <> trim "Hello" /\
  (let responses :=
     loadResponses Sample.config_caseSensitive
       (Sample.rows [["Hello"; "Hi there"]]) JSMap.empty in
   JSMap.entries responses = [("hello", "Hi there")] /\
   JSMap.get responses (normalize "hello") = Some "Hi there" /\
   handleMessage Sample.config_caseSensitive responses Sample.now
     (Sample.text "hello") Sample.ann Sample.direct = Replied "Hi there").
Proof.
  split; [reflexivity | split; [discriminate | vm_compute; repeat split]].
Qed.

(** C3 (amended).  Whatever [caseSensitive] is, keywords (at
    [loadResponses] and at [addResponse]) and message bodies are
    normalized by lower-casing and then trimming: the setting changes
    neither the table built nor the handling of a message, and a keyword
    and a body that differ only in letter case match exactly. *)
Theorem normalization_always_folds_case :
  forall cfg flag,
    (forall fetch old,
        loadResponses (with_caseSensitive flag cfg) fetch old =
        loadResponses cfg fetch old) /\
    (forall responses now message contact chat,
        handleMessage (with_caseSensitive flag cfg) responses now message
          contact chat =
        handleMessage cfg responses now message contact chat) /\
    (forall kw b r responses,
        toLowerCase kw = toLowerCase b ->
        JSMap.get (addResponse kw r responses) (normalize b) =
        Some (trim r)) /\
    (forall kw b r old,
        toLowerCase kw = toLowerCase b ->
        hasHeader cfg = false -> truthy kw = true -> truthy r = true ->
        JSMap.get
          (loadResponses (with_caseSensitive flag cfg)
             (Sample.rows [[kw; r]]) old)
          (normalize b) = Some (trim r)).
Proof.
  intros cfg flag. repeat split.
  - intros kw b r responses Hcase. unfold addResponse, normalize.
    rewrite Hcase. apply get_set_same.
  - intros kw b r old Hcase Hh Hkw Hr.
    unfold loadResponses, loadResponses_ops, loadResponses_try,
      Sample.rows, rebuild_ops, startRow, with_caseSensitive.
    cbn [hasHeader]. rewrite Hh.
    cbn [List.length Nat.ltb Nat.leb skipn flat_map row_ops nth_error app
         fst].
    rewrite Hkw, Hr. cbn. unfold normalize. rewrite Hcase.
    now rewrite String.eqb_refl.
Qed.

Lemma normalization_always_folds_case_witness :
  JSMap.get (addResponse "Bye" "See ya" JSMap.empty) (normalize "bye") =
  Some (trim "See ya") /\
  JSMap.get
    (loadResponses (with_caseSensitive true Sample.config)
       (Sample.rows [["Hello"; "Hi there"]]) JSMap.empty)
    (normalize "hello") = Some (trim "Hi there").
Proof.
  split.
  - apply (proj1 (proj2 (proj2
             (normalization_always_folds_case Sample.config true)))
             "Bye" "bye" "See ya" JSMap.empty).
    reflexivity.
  - apply (proj2 (proj2 (proj2
             (normalization_always_folds_case Sample.config true)))
             "Hello" "hello" "Hi there" JSMap.empty); reflexivity.
Defined.

(** ** The group gate *)

(** C4, as stated, fails: with the allow-list empty and only
    [respondToAll] set, the gate allows a group message.  The same happens
    when the list becomes empty: with one allowed group the gate denies a
    message from another group, and after that one group is removed it
    allows the same message. *)
Lemma empty_allow_list_cex :
  allowedGroups (groupSettings Sample.config) = [] /\
  respondOnlyWhenMentioned (groupSettings Sample.config) = false /\
  adminOnly (groupSettings Sample.config) = false /\
  shouldRespondInGroup Sample.config Sample.group (Sample.text "hello")
  = true /\
  (let allowing := addToAllowedGroups "120363999999999999@g.us" Sample.config
   in
   let emptied := removeFromAllowedGroups "120363999999999999@g.us" allowing
   in
   shouldRespondInGroup allowing Sample.group (Sample.text "hello") = false
   /\ allowedGroups (groupSettings emptied) = []
   /\ shouldRespondInGroup emptied Sample.group (Sample.text "hello")
      = true).
Proof. vm_compute. repeat split. Qed.

(** C4 (amended).  With an empty allow-list the allow-list rule is not
    evaluated (the test of line 163 fails); when mention-only is off the
    decision is the admin rule if [adminOnly] is set and the value of
    [respondToAll] otherwise. *)
Theorem empty_allow_list_falls_through :
  forall cfg chat message,
    allowedGroups (groupSettings cfg) = [] ->
    respondOnlyWhenMentioned (groupSettings cfg) = false ->
    shouldRespondInGroup cfg chat message =
    if adminOnly (groupSettings cfg)
    then GateSpec.rule GateSpec.AdminOnly cfg chat message
    else respondToAll (groupSettings cfg).
Proof.
  intros cfg chat message Hempty Hmention. unfold shouldRespondInGroup.
  rewrite Hmention, Hempty. reflexivity.
Qed.

Lemma empty_allow_list_falls_through_witness :
  shouldRespondInGroup Sample.config Sample.group (Sample.text "hello") =
  respondToAll (groupSettings Sample.config).
Proof.
  apply (empty_allow_list_falls_through Sample.config Sample.group
           (Sample.text "hello")); reflexivity.
Defined.

(** C5.  The gate evaluates the rule of exactly one mode: the first, in
    the order mention-only, allow-list, admin-only, respond-to-all, whose
    toggle is set (and denies when none is).  With mention-only and
    respond-to-all both set, a group message is allowed exactly when it
    mentions somebody. *)
Theorem gate_precedence :
  (forall cfg chat message,
      shouldRespondInGroup cfg chat message =
      GateSpec.allows cfg chat message) /\
  (forall cfg chat message,
      respondOnlyWhenMentioned (groupSettings cfg) = true ->
      respondToAll (groupSettings cfg) = true ->
      (shouldRespondInGroup cfg chat message = true <->
       mentionedIds message <> [])).
Proof.
  split.
  - intros cfg chat message.
    unfold shouldRespondInGroup, GateSpec.allows, GateSpec.active_mode,
      GateSpec.precedence.
    cbn [find GateSpec.toggle].
    destruct (respondOnlyWhenMentioned (groupSettings cfg)).
    + cbn [GateSpec.rule]. now destruct (mentionedIds message).
    + destruct (allowedGroups (groupSettings cfg)) as [|g gs] eqn:Hallow.
      * cbn. destruct (adminOnly (groupSettings cfg)); [reflexivity|].
        now destruct (respondToAll (groupSettings cfg)).
      * cbn. rewrite Hallow. reflexivity.
  - intros cfg chat message Hm _. unfold shouldRespondInGroup. rewrite Hm.
    destruct (mentionedIds message); cbn; split; intros H;
      first [discriminate | reflexivity | now elim H].
Qed.

Lemma gate_precedence_witness :
  (shouldRespondInGroup Sample.config_mention Sample.group
     (Sample.text "hello") = true <->
   mentionedIds (Sample.text "hello") <> []).
Proof.
  apply (proj2 gate_precedence Sample.config_mention Sample.group
           (Sample.text "hello")); reflexivity.
Defined.

(** ** Refresh *)

Lemma nth_error_write_same (h : list JSMap.t) (r : Store.ref)
  (m m0 : JSMap.t) :
  nth_error h r = Some m0 -> nth_error (Store.write h r m) r = Some m.
Proof.
  revert r. induction h as [|x h IH]; intros [|r]; simpl;
    try discriminate; auto.
Qed.

(** A sequence of mutations through [this.responses] leaves the field
    where it points and changes the object it points to. *)
Lemma run_ops_in_place (os : list JSMap.op) :
  forall w,
    Store.this_responses (Store.run_ops w os) = Store.this_responses w /\
    Store.deref (Store.run_ops w os) (Store.this_responses w) =
    option_map (fun m => JSMap.apply_ops m os)
               (Store.deref w (Store.this_responses w)).
Proof.
  induction os as [|o os IH]; intros w.
  - simpl. split; [reflexivity|].
    now destruct (Store.deref w (Store.this_responses w)).
  - change (Store.run_ops w (o :: os))
      with (Store.run_ops (Store.mutate w o) os).
    destruct (IH (Store.mutate w o)) as [Href Hobj].
    unfold Store.mutate in *.
    destruct (Store.deref w (Store.this_responses w)) as [m|] eqn:Hm.
    + cbn [Store.this_responses] in *. split; [exact Href|].
      rewrite Hobj. unfold Store.deref at 1. cbn [Store.heap].
      unfold Store.deref in Hm.
      rewrite (nth_error_write_same _ _ _ _ Hm). reflexivity.
    + split; [exact Href|]. rewrite Hobj, Hm. reflexivity.
Qed.

(** A rebuild from at least one row starts with [clear]: nothing of the
    table before it is left. *)
Lemma loadResponses_fresh (cfg : Config) (rows : list (list string))
  (old : JSMap.t) :
  rows <> [] ->
  loadResponses cfg (FetchOk (Some rows)) old =
  loadResponses cfg (FetchOk (Some rows)) JSMap.empty.
Proof.
  intros Hne. destruct rows as [|row rows]; [now elim Hne|]. reflexivity.
Qed.

(** One call either leaves the table as it is or replaces all of it. *)
Lemma loadResponses_cases (cfg : Config) (fetch : FetchResult)
  (old : JSMap.t) :
  loadResponses cfg fetch old = old \/
  exists rows, fetch = FetchOk (Some rows) /\ rows <> [] /\
               loadResponses cfg fetch old =
               loadResponses cfg (FetchOk (Some rows)) JSMap.empty.
Proof.
  destruct fetch as [|[[|row rows]|]]; try (left; reflexivity).
  right. exists (row :: rows). repeat split. discriminate.
Qed.

(** C6, as stated, fails: a refresh changes the very [Map] object that a
    reader holds.  The reference is the same before and after, no second
    table is built on the side, and the object passes through the empty
    table and a table holding only the first row. *)
Lemma refresh_mutates_held_table :
  let w := Store.construct [] in
  let w0 := Store.run_ops w [JSMap.Set_ "old" "o"] in
  let held := Store.this_responses w0 in
  let fetch := Sample.rows [["a"; "1"]; ["b"; "2"]] in
  let w1 := Store.loadResponses Sample.config fetch w0 in
  Store.deref w0 held = Some [("old", "o")] /\
  Store.deref w1 held = Some [("a", "1"); ("b", "2")] /\
  Store.this_responses w1 = held /\
  List.length (Store.heap w1) = List.length (Store.heap w0) /\
  map (fun x => Store.deref x held)
      (Store.trace w0 (loadResponses_ops Sample.config fetch)) =
  [ Some [("old", "o")]; Some []; Some [("a", "1")];
    Some [("a", "1"); ("b", "2")] ].
Proof. vm_compute. repeat split. Qed.

(** C6 (amended).  A refresh rebuilds the one table object in place
    ([clear], then a [set] for each accepted row) and never assigns the
    field; after a fetch of at least one row nothing of the old table is
    left.  The rebuild is one synchronous block and so is a lookup:
    whatever the order in which refreshes and lookups run, each lookup
    reads either the table the schedule started with or the complete table
    built from the rows of one refresh. *)
Theorem refresh_in_place_atomic_block :
  (forall cfg fetch w,
      Store.this_responses (Store.loadResponses cfg fetch w) =
      Store.this_responses w /\
      Store.deref (Store.loadResponses cfg fetch w) (Store.this_responses w)
      = option_map (loadResponses cfg fetch)
                   (Store.deref w (Store.this_responses w))) /\
  (forall cfg rows old,
      rows <> [] ->
      loadResponses cfg (FetchOk (Some rows)) old =
      loadResponses cfg (FetchOk (Some rows)) JSMap.empty) /\
  (forall cfg tasks t0 t,
      In t (EventLoop.observed cfg tasks t0) ->
      t = t0 \/
      exists rows,
        In (EventLoop.Refresh (FetchOk (Some rows))) tasks /\
        rows <> [] /\
        t = loadResponses cfg (FetchOk (Some rows)) JSMap.empty).
Proof.
  split; [|split].
  - intros cfg fetch w. apply run_ops_in_place.
  - intros cfg rows old. apply loadResponses_fresh.
  - intros cfg tasks. induction tasks as [|[fetch|messageBody] rest IH];
      intros t0 t Hin.
    + destruct Hin.
    + cbn [EventLoop.observed] in Hin.
      destruct (IH _ _ Hin) as [Heq | (rows & Hrows & Hne & Ht)].
      * destruct (loadResponses_cases cfg fetch t0)
          as [Hsame | (rows & Hf & Hne & Hnew)].
        -- left. congruence.
        -- right. exists rows. subst fetch.
           repeat split; [now left | exact Hne | congruence].
      * right. exists rows. repeat split; [now right | exact Hne | exact Ht].
    + cbn [EventLoop.observed] in Hin. destruct Hin as [<- | Hin].
      * now left.
      * destruct (IH _ _ Hin) as [Heq | (rows & Hrows & Hne & Ht)].
        -- now left.
        -- right. exists rows.
           repeat split; [now right | exact Hne | exact Ht].
Qed.

Lemma refresh_in_place_atomic_block_witness :
  [("a", "1")] = [("old", "o")] \/
  exists rows,
    In (EventLoop.Refresh (FetchOk (Some rows)))
       [EventLoop.Lookup "x"; EventLoop.Refresh (Sample.rows [["a"; "1"]]);
        EventLoop.Lookup "a"] /\
    rows <> [] /\
    [("a", "1")] = loadResponses Sample.config (FetchOk (Some rows))
                     JSMap.empty.
Proof.
  apply (proj2 (proj2 refresh_in_place_atomic_block) Sample.config
           [EventLoop.Lookup "x"; EventLoop.Refresh (Sample.rows [["a"; "1"]]);
            EventLoop.Lookup "a"]
           [("old", "o")] [("a", "1")]).
  simpl. right. left. reflexivity.
Defined.

(** A refresh whose fetch fails can be dropped from a schedule: every
    lookup computes the same [reply]. *)
Lemma failed_refresh_transparent (cfg : Config)
  (pre post : list EventLoop.Task) :
  forall t0,
    EventLoop.replies cfg (pre ++ EventLoop.Refresh FetchError :: post)%list
      t0 =
    EventLoop.replies cfg (pre ++ post)%list t0.
Proof.
  induction pre as [|[fetch|messageBody] pre IH]; intros t0; simpl.
  - reflexivity.
  - apply IH.
  - f_equal. apply IH.
Qed.

(** C7.  When the fetch fails, [loadResponses] performs no mutation: the
    table is the one from before the call, entry for entry; the call ends
    normally (the error is caught and logged), every message is handled as
    it would have been without the call, and so is every lookup of a
    schedule the failed refresh is part of. *)
Theorem fetch_failure_keeps_table :
  forall cfg,
    loadResponses_ops cfg FetchError = [] /\
    loadResponses_completion cfg FetchError = Normal /\
    (forall responses,
        JSMap.entries (loadResponses cfg FetchError responses) =
        JSMap.entries responses) /\
    (forall w, Store.loadResponses cfg FetchError w = w) /\
    (forall responses now message contact chat,
        handleMessage cfg (loadResponses cfg FetchError responses) now
          message contact chat =
        handleMessage cfg responses now message contact chat) /\
    (forall pre post t0,
        EventLoop.replies cfg
          (pre ++ EventLoop.Refresh FetchError :: post)%list t0 =
        EventLoop.replies cfg (pre ++ post)%list t0).
Proof.
  intros cfg. repeat split. apply failed_refresh_transparent.
Qed.

(** ** The default reply *)

(** C8.  A default reply is configured and no key of the table occurs in
    the normalized body.  With [sendDefaultReplyInGroups] false, a group
    message that passes the group gate ends without any reply, and no
    group message gets the default reply; the same message in a direct
    chat is answered with the default reply. *)
Theorem default_reply_group_vs_direct :
  forall cfg (responses : JSMap.t) now message contact groupChat directChat d,
    defaultReply cfg = Some d -> truthy d = true ->
    sendDefaultReplyInGroups (groupSettings cfg) = false ->
    from message <> "status@broadcast" -> fromMe message = false ->
    (forall k v, In (k, v) (JSMap.entries responses) ->
                 includes (normalize (body message)) k = false) ->
    isGroup groupChat = true -> isGroup directChat = false ->
    (shouldRespondInGroup cfg groupChat message = true ->
     handleMessage cfg responses now message contact groupChat = NoReply) /\
    (forall t, handleMessage cfg responses now message contact groupChat
               <> DefaultReplied t) /\
    handleMessage cfg responses now message contact directChat
    = DefaultReplied d.
Proof.
  intros cfg responses now message contact groupChat directChat d
         Hd Htruthy Hsend Hfrom Hme Hno Hgroup Hdirect.
  pose proof (lookupReply_no_match _ _ Hno) as Hlookup.
  assert (Hg : handleMessage cfg responses now message contact groupChat =
               if shouldRespondInGroup cfg groupChat message
               then NoReply else SkippedGroup).
  { unfold handleMessage.
    destruct (String.eqb_spec (from message) "status@broadcast");
      [contradiction|].
    rewrite Hme, Hgroup.
    destruct (shouldRespondInGroup cfg groupChat message); cbn [andb negb];
      [|reflexivity].
    rewrite Hlookup. unfold defaultBranch, shouldSendDefaultReply.
    now rewrite Hd, Htruthy, Hgroup, Hsend. }
  repeat split.
  - intros Hgate. now rewrite Hg, Hgate.
  - intros t. rewrite Hg.
    destruct (shouldRespondInGroup cfg groupChat message); discriminate.
  - rewrite handleMessage_past_gates; [|assumption|assumption|].
    + rewrite Hlookup. unfold defaultBranch, shouldSendDefaultReply.
      now rewrite Hd, Htruthy, Hdirect.
    + now rewrite Hdirect.
Qed.

Lemma default_reply_group_vs_direct_witness :
  handleMessage Sample.config [("hello", "Hi there")] Sample.now
    (Sample.text "good morning") Sample.ann Sample.group = NoReply /\
  handleMessage Sample.config [("hello", "Hi there")] Sample.now
    (Sample.text "good morning") Sample.ann Sample.direct
  = DefaultReplied "Sorry, I did not get that.".
Proof.
  assert (Hno : forall k v,
             In (k, v) (JSMap.entries [("hello", "Hi there")]) ->
             includes (normalize (body (Sample.text "good morning"))) k
             = false).
  { intros k v [E | []]. inversion E. reflexivity. }
  destruct (default_reply_group_vs_direct Sample.config
              [("hello", "Hi there")] Sample.now (Sample.text "good morning")
              Sample.ann Sample.group Sample.direct
              "Sorry, I did not get that."
              eq_refl eq_refl eq_refl
              ltac:(discriminate) eq_refl Hno eq_refl eq_refl)
    as (Hgroup & _ & Hdirect).
  split; [exact (Hgroup eq_refl) | exact Hdirect].
Defined.

(** ** Placeholder expansion *)


(** ** A row whose keyword is blank *)

Lemma apply_ops_app (m : JSMap.t) (a b : list JSMap.op) :
  JSMap.apply_ops m (a ++ b)%list = JSMap.apply_ops (JSMap.apply_ops m a) b.
Proof. unfold JSMap.apply_ops. apply fold_left_app. Qed.

(** A row contributes at most one [set], never a [clear]. *)
Lemma row_ops_shape (row : list string) (o : JSMap.op) :
  In o (row_ops row) -> exists k v, o = JSMap.Set_ k v.
Proof.
  unfold row_ops.
  destruct (nth_error row 0) as [k|]; [|intros []].
  destruct (nth_error row 1) as [r|]; [|intros []].
  destruct (truthy k && truthy r); [|intros []].
  intros [<- | []]. now exists (normalize k), (trim r).
Qed.

(** Mutations that neither clear nor set key [k] leave its value. *)
Lemma get_apply_ops_other (k : string) (os : list JSMap.op) :
  forall m,
    (forall o, In o os -> exists k' v, o = JSMap.Set_ k' v /\ k' <> k) ->
    JSMap.get (JSMap.apply_ops m os) k = JSMap.get m k.
Proof.
  induction os as [|o os IH]; intros m Hos; [reflexivity|].
  change (JSMap.apply_ops m (o :: os))
    with (JSMap.apply_ops (JSMap.apply_op m o) os).
  rewrite IH by (intros o' Ho'; apply Hos; now right).
  destruct (Hos o (or_introl eq_refl)) as (k' & v & -> & Hne).
  simpl. now apply get_set_other.
Qed.

(** A key that is present splits the entries at its position. *)
Lemma get_split (m : JSMap.t) (k v : string) :
  JSMap.get m k = Some v ->
  exists post, m = (JSMap.entries_before m k ++ (k, v) :: post)%list.
Proof.
  induction m as [|[k0 v0] m IH]; simpl; [discriminate|].
  destruct (String.eqb_spec k0 k) as [->|ne]; intros H.
  - exists m. simpl. congruence.
  - destruct (IH H) as [post Hpost]. exists post. simpl. now f_equal.
Qed.

(** C10, as stated, fails: after the rows [cat -> meow] and
    [" " -> fallback], the body [category] has no exact match and is
    answered with the reply of [cat], which comes first in the table, not
    with the reply stored under the empty key. *)
Lemma blank_keyword_not_always_reached_cex :
  let responses :=
    loadResponses Sample.config
      (Sample.rows [["cat"; "meow"]; [" "; "fallback"]]) JSMap.empty in
  JSMap.get responses "" = Some "fallback" /\
  JSMap.get responses (normalize "category") = None /\
  lookupReply responses (normalize "category") = Some "meow" /\
  handleMessage Sample.config responses Sample.now (Sample.text "category")
    Sample.ann Sample.direct = Replied "meow".
Proof. vm_compute. repeat split. Qed.

(** C10 (amended).  A row after the header whose keyword cell is not empty
    and normalizes to the empty text, and whose reply cell is not empty,
    is not skipped: unless a later row of the same fetch sets the empty key
    again, the table holds the trimmed reply under the empty key.
    Afterwards a body without exact match, and with no occurrence of any
    key that the table lists before the empty key, gets that reply as the
    value of [reply]; the handler sends it (expanded) when the message
    passes the early returns and the trimmed reply is not empty. *)
Theorem blank_keyword_row_catches_unmatched :
  forall cfg pre k r extra post old,
    (startRow cfg <= List.length pre)%nat ->
    truthy k = true -> normalize k = "" -> truthy r = true ->
    (forall row v, In row post -> ~ In (JSMap.Set_ "" v) (row_ops row)) ->
    let responses :=
      loadResponses cfg
        (FetchOk (Some (pre ++ (k :: r :: extra) :: post)%list)) old in
    JSMap.get responses "" = Some (trim r) /\
    (forall messageBody,
        JSMap.get responses messageBody = None ->
        (forall e, In e (JSMap.entries_before responses "") ->
                   includes messageBody (fst e) = false) ->
        lookupReply responses messageBody = Some (trim r)) /\
    (forall now message contact chat,
        from message <> "status@broadcast" ->
        fromMe message = false ->
        isGroup chat && negb (shouldRespondInGroup cfg chat message)
        = false ->
        JSMap.get responses (normalize (body message)) = None ->
        (forall e, In e (JSMap.entries_before responses "") ->
                   includes (normalize (body message)) (fst e) = false) ->
        truthy (trim r) = true ->
        handleMessage cfg responses now message contact chat =
        Replied (processDynamicContent (trim r) contact message chat now)).
Proof.
  intros cfg pre k r extra post old Hstart Hk Hnorm Hr Hlater responses.
  assert (Hget : JSMap.get responses "" = Some (trim r)).
  { subst responses.
    unfold loadResponses, loadResponses_ops, loadResponses_try.
    assert (Hlen : (0 <? List.length
                            (pre ++ (k :: r :: extra) :: post)%list)%nat
                   = true).
    { apply Nat.ltb_lt. rewrite length_app. simpl. lia. }
    rewrite Hlen. cbn [fst]. unfold rebuild_ops.
    rewrite skipn_app.
    replace (startRow cfg - List.length pre) with 0 by lia.
    cbn [skipn]. rewrite flat_map_app. cbn [flat_map].
    assert (Hrow : row_ops (k :: r :: extra)
                   = [JSMap.Set_ "" (trim r)]).
    { unfold row_ops. cbn [nth_error]. now rewrite Hk, Hr, Hnorm. }
    rewrite Hrow.
    change (JSMap.apply_ops old (JSMap.Clear :: ?os))
      with (JSMap.apply_ops JSMap.empty os).
    rewrite apply_ops_app.
    change (JSMap.apply_ops ?m ([JSMap.Set_ "" (trim r)] ++ ?os)%list)
      with (JSMap.apply_ops (JSMap.set m "" (trim r)) os).
    rewrite get_apply_ops_other; [apply get_set_same|].
    intros o Ho. apply in_flat_map in Ho as (row & Hrow_in & Ho).
    destruct (row_ops_shape _ _ Ho) as (k' & v & ->).
    exists k', v. split; [reflexivity|].
    intros ->. exact (Hlater row v Hrow_in Ho). }
  assert (Hscan : forall messageBody,
             JSMap.get responses messageBody = None ->
             (forall e, In e (JSMap.entries_before responses "") ->
                        includes messageBody (fst e) = false) ->
             lookupReply responses messageBody = Some (trim r)).
  { intros messageBody Hnone Hbefore.
    destruct (get_split _ _ _ Hget) as [rest Hsplit].
    apply (lookupReply_first_partial responses messageBody
             (JSMap.entries_before responses "") "" (trim r) rest);
      [exact Hnone | exact Hsplit | exact Hbefore | apply includes_empty]. }
  split; [exact Hget | split; [exact Hscan|]].
  intros now message contact chat Hfrom Hme Hgate Hnone Hbefore Htrim.
  rewrite (handleMessage_past_gates _ _ _ _ _ _ Hfrom Hme Hgate).
  rewrite (Hscan _ Hnone Hbefore). now rewrite Htrim.
Qed.

Lemma blank_keyword_row_catches_unmatched_witness :
  let responses :=
    loadResponses Sample.config
      (Sample.rows [["cat"; "meow"]; [" "; "fallback"]]) [("old", "o")] in
  JSMap.get responses "" = Some (trim "fallback") /\
  lookupReply responses "dog" = Some (trim "fallback") /\
  handleMessage Sample.config responses Sample.now (Sample.text "Dog")
    Sample.ann Sample.direct =
  Replied (processDynamicContent (trim "fallback") Sample.ann
             (Sample.text "Dog") Sample.direct Sample.now).
Proof.
  intros responses.
  assert (Hbefore : forall e,
             In e (JSMap.entries_before responses "") ->
             includes "dog" (fst e) = false).
  { intros e [<- | []]. reflexivity. }
  destruct (blank_keyword_row_catches_unmatched Sample.config
              [["cat"; "meow"]] " " "fallback" [] [] [("old", "o")]
              ltac:(vm_compute; lia) eq_refl eq_refl eq_refl
              ltac:(intros row v [])) as (Hget & Hscan & Hsend).
  split; [exact Hget | split].
  - exact (Hscan "dog" eq_refl Hbefore).
  - exact (Hsend Sample.now (Sample.text "Dog") Sample.ann Sample.direct
             ltac:(discriminate) eq_refl eq_refl eq_refl Hbefore eq_refl).
Defined.

(* ------------------------------------------------------------------ *)
(** * Further properties of the table *)

Section MapFacts.

Variables (k v : string).

Lemma keys_set (m : JSMap.t) :
  map fst (JSMap.set m k v) =
  if existsb (String.eqb k) (map fst m) then map fst m
  else (map fst m ++ [k])%list.
Proof.
  induction m as [|[k0 v0] m IH]; simpl; [reflexivity|].
  rewrite (String.eqb_sym k k0).
  destruct (String.eqb k0 k); simpl; [reflexivity|].
  rewrite IH. now destruct (existsb (String.eqb k) (map fst m)).
Qed.

Lemma In_set_inv (m : JSMap.t) (k' v' : string) :
  In (k', v') (JSMap.set m k v) -> In (k', v') m \/ (k', v') = (k, v).
Proof.
  induction m as [|[k0 v0] m IH]; simpl.
  - intros [E | []]. right. now symmetry.
  - destruct (String.eqb_spec k0 k) as [->|ne]; simpl.
    + intros [E | H]; [right; now symmetry | left; now right].
    + intros [E | H]; [left; now left|].
      destruct (IH H) as [H' | H']; [left; now right | now right].
Qed.

Lemma size_set (m : JSMap.t) :
  JSMap.size (JSMap.set m k v) <= S (JSMap.size m).
Proof.
  unfold JSMap.size.
  induction m as [|[k0 v0] m IH]; simpl; [lia|].
  destruct (String.eqb k0 k); simpl; lia.
Qed.

Lemma existsb_eqb_In (l : list string) :
  existsb (String.eqb k) l = true <-> In k l.
Proof.
  rewrite existsb_exists. split.
  - intros (x & Hin & E). apply String.eqb_eq in E. now subst.
  - intros Hin. exists k. split; [exact Hin | apply String.eqb_refl].
Qed.

Lemma NoDup_keys_set (m : JSMap.t) :
  NoDup (map fst m) -> NoDup (map fst (JSMap.set m k v)).
Proof.
  intros Hnd. rewrite keys_set.
  destruct (existsb (String.eqb k) (map fst m)) eqn:E; [exact Hnd|].
  apply NoDup_app; [exact Hnd | repeat constructor; intros [] |].
  intros x Hx [<- | []].
  apply existsb_eqb_In in Hx. congruence.
Qed.

Lemma NoDup_keys_get (m : JSMap.t) :
  NoDup (map fst m) -> In (k, v) m -> JSMap.get m k = Some v.
Proof.
  induction m as [|[k0 v0] m IH]; simpl; [intros _ []|].
  intros Hnd Hin. inversion Hnd as [|? ? Hnotin Hnd']; subst.
  destruct Hin as [E | Hin].
  - inversion E; subst. now rewrite String.eqb_refl.
  - destruct (String.eqb_spec k0 k) as [->|ne]; [|now apply IH].
    elim Hnotin. now apply (in_map fst _ (k, v)).
Qed.

End MapFacts.

Lemma NoDup_keys_apply_ops (os : list JSMap.op) :
  forall m, NoDup (map fst m) -> NoDup (map fst (JSMap.apply_ops m os)).
Proof.
  induction os as [|o os IH]; intros m Hnd; [exact Hnd|].
  change (JSMap.apply_ops m (o :: os))
    with (JSMap.apply_ops (JSMap.apply_op m o) os).
  apply IH. destruct o as [|k v]; simpl.
  - constructor.
  - now apply NoDup_keys_set.
Qed.

Lemma NoDup_keys_act (cfg : Config) (a : Admin.Action) (m : JSMap.t) :
  NoDup (map fst m) -> NoDup (map fst (Admin.act cfg m a)).
Proof.
  destruct a as [fetch | keyword reply]; simpl; intros Hnd.
  - now apply NoDup_keys_apply_ops.
  - now apply NoDup_keys_set.
Qed.

(** X1.  Whatever refreshes and manual entries have been made since the
    bot was constructed, no key is listed twice by [getResponses], and
    every listed entry is the one the exact lookup returns for its key. *)
Theorem table_keys_distinct :
  forall cfg actions,
    NoDup (map fst (Admin.getResponses (Admin.run cfg actions))) /\
    (forall k v,
        In (k, v) (Admin.getResponses (Admin.run cfg actions)) ->
        JSMap.get (Admin.run cfg actions) k = Some v).
Proof.
  intros cfg actions.
  assert (Hnd : NoDup (map fst (Admin.run cfg actions))).
  { unfold Admin.run.
    assert (G : forall m, NoDup (map fst m) ->
                          NoDup (map fst (fold_left (Admin.act cfg) actions m))).
    { induction actions as [|a actions IH]; intros m Hm; [exact Hm|].
      simpl. apply IH. now apply NoDup_keys_act. }
    apply G. constructor. }
  split; [exact Hnd|].
  intros k v Hin. now apply NoDup_keys_get.
Qed.

(** The rows a rebuild reads: those from [startRow] on. *)
Lemma loadResponses_rebuild (cfg : Config) (rows : list (list string))
  (old : JSMap.t) :
  rows <> [] ->
  loadResponses cfg (FetchOk (Some rows)) old =
  JSMap.apply_ops JSMap.empty
    (flat_map row_ops (skipn (startRow cfg) rows)).
Proof.
  intros Hne. destruct rows as [|row rows]; [now elim Hne|]. reflexivity.
Qed.

Lemma flat_map_row_ops_shape (rows : list (list string)) (o : JSMap.op) :
  In o (flat_map row_ops rows) ->
  exists row k r,
    In row rows /\ nth_error row 0 = Some k /\ nth_error row 1 = Some r /\
    truthy k = true /\ truthy r = true /\
    o = JSMap.Set_ (normalize k) (trim r).
Proof.
  intros Ho. apply in_flat_map in Ho as (row & Hrow & Ho).
  exists row. unfold row_ops in Ho.
  destruct (nth_error row 0) as [k|]; [|destruct Ho].
  destruct (nth_error row 1) as [r|]; [|destruct Ho].
  destruct (truthy k) eqn:Hk; [|destruct Ho].
  destruct (truthy r) eqn:Hr; [|destruct Ho].
  destruct Ho as [<- | []]. exists k, r. repeat split; assumption.
Qed.

Lemma In_apply_sets (os : list JSMap.op) :
  (forall o, In o os -> exists k v, o = JSMap.Set_ k v) ->
  forall m k v,
    In (k, v) (JSMap.apply_ops m os) ->
    In (k, v) m \/ In (JSMap.Set_ k v) os.
Proof.
  induction os as [|o os IH]; intros Hos m k v Hin; [now left|].
  change (JSMap.apply_ops m (o :: os))
    with (JSMap.apply_ops (JSMap.apply_op m o) os) in Hin.
  destruct (IH (fun o' H => Hos o' (or_intror H)) _ _ _ Hin) as [H | H].
  - destruct (Hos o (or_introl eq_refl)) as (k' & v' & ->). simpl in H.
    destruct (In_set_inv _ _ _ _ _ H) as [H' | E].
    + now left.
    + right. left. now inversion E.
  - right. now right.
Qed.

(** X2.  After a refresh that fetched at least one row, every entry of
    the table comes from a row after the header whose keyword and reply
    cells are both non-empty: its key is the normalized keyword and its
    value the trimmed reply of that row.  Nothing of the previous table
    and nothing of a skipped row is in it. *)
Theorem refresh_entries_come_from_rows :
  forall cfg rows old k v,
    rows <> [] ->
    In (k, v) (loadResponses cfg (FetchOk (Some rows)) old) ->
    exists row keyword reply,
      In row (skipn (startRow cfg) rows) /\
      nth_error row 0 = Some keyword /\ nth_error row 1 = Some reply /\
      truthy keyword = true /\ truthy reply = true /\
      k = normalize keyword /\ v = trim reply.
Proof.
  intros cfg rows old k v Hne Hin.
  rewrite (loadResponses_rebuild _ _ _ Hne) in Hin.
  apply In_apply_sets in Hin.
  - destruct Hin as [[] | Hin].
    destruct (flat_map_row_ops_shape _ _ Hin)
      as (row & kw & r & Hrow & H0 & H1 & Hk & Hr & E).
    exists row, kw, r. inversion E. repeat split; assumption.
  - intros o Ho. apply in_flat_map in Ho as (row & _ & Ho).
    exact (row_ops_shape _ _ Ho).
Qed.

Lemma refresh_entries_come_from_rows_witness :
  exists row keyword reply,
    In row (skipn (startRow Sample.config)
              [["Hello "; " Hi there"]; ["only keyword"]]) /\
    nth_error row 0 = Some keyword /\ nth_error row 1 = Some reply /\
    truthy keyword = true /\ truthy reply = true /\
    "hello" = normalize keyword /\ "Hi there" = trim reply.
Proof.
  apply (refresh_entries_come_from_rows Sample.config
           [["Hello "; " Hi there"]; ["only keyword"]] [("old", "o")]).
  - discriminate.
  - vm_compute. left. reflexivity.
Defined.

Lemma size_apply_ops (os : list JSMap.op) :
  forall m, JSMap.size (JSMap.apply_ops m os) <= JSMap.size m + List.length os.
Proof.
  induction os as [|o os IH]; intros m; [simpl; lia|].
  change (JSMap.apply_ops m (o :: os))
    with (JSMap.apply_ops (JSMap.apply_op m o) os).
  specialize (IH (JSMap.apply_op m o)). destruct o as [|k v]; simpl in *.
  - unfold JSMap.size in *. simpl in IH. lia.
  - pose proof (size_set k v m). lia.
Qed.

Lemma length_flat_map_row_ops (rows : list (list string)) :
  List.length (flat_map row_ops rows) <= List.length rows.
Proof.
  induction rows as [|row rows IH]; simpl; [lia|].
  rewrite length_app.
  assert (List.length (row_ops row) <= 1).
  { unfold row_ops. destruct (nth_error row 0); [|simpl; lia].
    destruct (nth_error row 1); [|simpl; lia].
    destruct (truthy s && truthy s0); simpl; lia. }
  lia.
Qed.

(** X3.  After a refresh that fetched at least one row, the number of
    entries ([getStats().totalResponses]) is at most the number of rows
    after the header; a sheet of which no row after the header has both
    cells non-empty leaves the table empty, whatever it held before. *)
Theorem refresh_size_bound :
  forall cfg rows old,
    rows <> [] ->
    Admin.totalResponses (loadResponses cfg (FetchOk (Some rows)) old)
    <= List.length rows - startRow cfg /\
    ((forall row, In row (skipn (startRow cfg) rows) -> row_ops row = []) ->
     loadResponses cfg (FetchOk (Some rows)) old = JSMap.empty).
Proof.
  intros cfg rows old Hne. rewrite (loadResponses_rebuild _ _ _ Hne). split.
  - unfold Admin.totalResponses.
    pose proof (size_apply_ops
                  (flat_map row_ops (skipn (startRow cfg) rows)) JSMap.empty).
    pose proof (length_flat_map_row_ops (skipn (startRow cfg) rows)).
    rewrite length_skipn in *. unfold JSMap.size, JSMap.empty in *.
    simpl in *. lia.
  - intros Hnone.
    assert (E : flat_map row_ops (skipn (startRow cfg) rows) = []).
    { induction (skipn (startRow cfg) rows) as [|row l IH]; [reflexivity|].
      simpl. rewrite (Hnone row (or_introl eq_refl)). simpl.
      apply IH. intros r Hr. apply Hnone. now right. }
    now rewrite E.
Qed.

Lemma refresh_size_bound_witness :
  Admin.totalResponses
    (loadResponses (Env.config (Env.of_list []))
       (FetchOk (Some [["Keyword"; "Reply"]; ["hi"; "Hello"]; ["HI"; "Hey"]]))
       [("old", "o")])
  <= 3 - startRow (Env.config (Env.of_list [])) /\
  loadResponses (Env.config (Env.of_list []))
    (FetchOk (Some [["Keyword"; "Reply"]; ["hi"]; [""; "x"]]))
    [("old", "o")] = JSMap.empty.
Proof.
  split.
  - apply (refresh_size_bound (Env.config (Env.of_list []))
             [["Keyword"; "Reply"]; ["hi"; "Hello"]; ["HI"; "Hey"]]
             [("old", "o")]).
    discriminate.
  - apply (refresh_size_bound (Env.config (Env.of_list []))
             [["Keyword"; "Reply"]; ["hi"]; [""; "x"]] [("old", "o")]).
    + discriminate.
    + intros row [<- | [<- | []]]; reflexivity.
Defined.

Lemma keys_apply_sets (os : list JSMap.op) :
  (forall o, In o os -> exists k v, o = JSMap.Set_ k v) ->
  forall m,
    map fst (JSMap.apply_ops m os) =
    fold_left (fun acc k =>
                 if existsb (String.eqb k) acc then acc
                 else (acc ++ [k])%list)
              (Admin.ops_keys os) (map fst m).
Proof.
  induction os as [|o os IH]; intros Hos m; [reflexivity|].
  change (JSMap.apply_ops m (o :: os))
    with (JSMap.apply_ops (JSMap.apply_op m o) os).
  rewrite IH by (intros o' H; apply Hos; now right).
  destruct (Hos o (or_introl eq_refl)) as (k & v & ->).
  simpl. now rewrite keys_set.
Qed.

(** X4.  The order in which a refreshed table is iterated, which is the
    priority among partial matches, is the order in which the normalized
    keywords first occur among the accepted rows: a later row with the
    same keyword changes the reply, not the position. *)
Theorem refresh_key_order :
  forall cfg rows old,
    rows <> [] ->
    map fst (Admin.getResponses (loadResponses cfg (FetchOk (Some rows)) old))
    = Admin.first_occurrences
        (Admin.ops_keys (flat_map row_ops (skipn (startRow cfg) rows))).
Proof.
  intros cfg rows old Hne. rewrite (loadResponses_rebuild _ _ _ Hne).
  unfold Admin.getResponses, JSMap.entries, Admin.first_occurrences.
  rewrite keys_apply_sets; [reflexivity|].
  intros o Ho. apply in_flat_map in Ho as (row & _ & Ho).
  exact (row_ops_shape _ _ Ho).
Qed.

Lemma refresh_key_order_witness :
  map fst (Admin.getResponses
             (loadResponses Sample.config
                (FetchOk (Some [["cat"; "A"]; ["category"; "B"];
                                [" CAT "; "C"]]))
                [("old", "o")]))
  = Admin.first_occurrences
      (Admin.ops_keys
         (flat_map row_ops
            (skipn (startRow Sample.config)
               [["cat"; "A"]; ["category"; "B"]; [" CAT "; "C"]]))).
Proof.
  apply (refresh_key_order Sample.config
           [["cat"; "A"]; ["category"; "B"]; [" CAT "; "C"]] [("old", "o")]).
  discriminate.
Defined.

(** X5.  Last writer wins, end to end: a row after the header with both
    cells non-empty, followed by no row with the same normalized keyword,
    puts its trimmed reply under its normalized keyword; a message whose
    body normalizes to that keyword and that passes the early returns is
    then answered with the expansion of that reply, if it is not empty. *)
Theorem refresh_last_row_wins :
  forall cfg pre keyword reply extra post old,
    startRow cfg <= List.length pre ->
    truthy keyword = true -> truthy reply = true ->
    (forall row keyword',
        In row post -> nth_error row 0 = Some keyword' ->
        normalize keyword' <> normalize keyword) ->
    let responses :=
      loadResponses cfg
        (FetchOk (Some (pre ++ (keyword :: reply :: extra) :: post)%list))
        old in
    JSMap.get responses (normalize keyword) = Some (trim reply) /\
    (forall now message contact chat,
        from message <> "status@broadcast" ->
        fromMe message = false ->
        isGroup chat && negb (shouldRespondInGroup cfg chat message)
        = false ->
        normalize (body message) = normalize keyword ->
        truthy (trim reply) = true ->
        handleMessage cfg responses now message contact chat =
        Replied (processDynamicContent (trim reply) contact message chat
                   now)).
Proof.
  intros cfg pre keyword reply extra post old Hstart Hk Hr Hlater responses.
  assert (Hget : JSMap.get responses (normalize keyword)
                 = Some (trim reply)).
  { subst responses. rewrite loadResponses_rebuild by (now destruct pre).
    rewrite skipn_app.
    replace (startRow cfg - List.length pre) with 0 by lia.
    cbn [skipn]. rewrite flat_map_app. cbn [flat_map].
    assert (Hrow : row_ops (keyword :: reply :: extra)
                   = [JSMap.Set_ (normalize keyword) (trim reply)]).
    { unfold row_ops. cbn [nth_error]. now rewrite Hk, Hr. }
    rewrite Hrow, apply_ops_app.
    change (JSMap.apply_ops ?m ([JSMap.Set_ ?a ?b] ++ ?os)%list)
      with (JSMap.apply_ops (JSMap.set m a b) os).
    rewrite get_apply_ops_other; [apply get_set_same|].
    intros o Ho.
    destruct (flat_map_row_ops_shape _ _ Ho)
      as (row & kw & r & Hrow_in & H0 & _ & _ & _ & ->).
    exists (normalize kw), (trim r). split; [reflexivity|].
    exact (Hlater row kw Hrow_in H0). }
  split; [exact Hget|].
  intros now message contact chat Hfrom Hme Hgate Hbody Htrim.
  rewrite (handleMessage_past_gates _ _ _ _ _ _ Hfrom Hme Hgate).
  rewrite Hbody, (lookupReply_exact _ _ _ Hget Htrim). now rewrite Htrim.
Qed.

Lemma refresh_last_row_wins_witness :
  let responses :=
    loadResponses (Env.config (Env.of_list []))
      (FetchOk (Some [["Keyword"; "Reply"]; ["hi"; "Hello"];
                      [" HI"; "Hey {name}"; "note"]; ["bye"; "Ciao"]]))
      [("old", "o")] in
  JSMap.get responses (normalize " HI") = Some (trim "Hey {name}") /\
  handleMessage (Env.config (Env.of_list [])) responses Sample.now
    (Sample.text "Hi ") Sample.ann Sample.group
  = Replied (processDynamicContent (trim "Hey {name}") Sample.ann
               (Sample.text "Hi ") Sample.group Sample.now).
Proof.
  intros responses.
  destruct (refresh_last_row_wins (Env.config (Env.of_list []))
              [["Keyword"; "Reply"]; ["hi"; "Hello"]]
              " HI" "Hey {name}" ["note"] [["bye"; "Ciao"]] [("old", "o")]
              ltac:(vm_compute; lia) eq_refl eq_refl
              ltac:(intros row kw [<- | []] E; inversion E; discriminate))
    as [Hget Hsend].
  split; [exact Hget|].
  exact (Hsend Sample.now (Sample.text "Hi ") Sample.ann Sample.group
           ltac:(discriminate) eq_refl eq_refl eq_refl eq_refl).
Defined.

(* ------------------------------------------------------------------ *)
(** * Normalization *)

Lemma toLowerCaseUnit_idem (c : ascii) :
  toLowerCaseUnit (toLowerCaseUnit c) = toLowerCaseUnit c.
Proof. destruct c as [[] [] [] [] [] [] [] []]; reflexivity. Qed.

Lemma isWhiteSpace_toLowerCaseUnit (c : ascii) :
  isWhiteSpace (toLowerCaseUnit c) = isWhiteSpace c.
Proof. destruct c as [[] [] [] [] [] [] [] []]; reflexivity. Qed.

Lemma toLowerCase_idem (s : string) :
  toLowerCase (toLowerCase s) = toLowerCase s.
Proof.
  induction s as [|c s IH]; simpl; [reflexivity|].
  now rewrite toLowerCaseUnit_idem, IH.
Qed.

Lemma isEmpty_toLowerCase (s : string) :
  isEmpty (toLowerCase s) = isEmpty s.
Proof. destruct s; reflexivity. Qed.

Lemma toLowerCase_trimStart (s : string) :
  toLowerCase (trimStart s) = trimStart (toLowerCase s).
Proof.
  induction s as [|c s IH]; simpl; [reflexivity|].
  rewrite isWhiteSpace_toLowerCaseUnit.
  destruct (isWhiteSpace c); [exact IH | reflexivity].
Qed.

Lemma toLowerCase_trimEnd (s : string) :
  toLowerCase (trimEnd s) = trimEnd (toLowerCase s).
Proof.
  induction s as [|c s IH]; simpl; [reflexivity|].
  rewrite isWhiteSpace_toLowerCaseUnit, <- IH, isEmpty_toLowerCase.
  destruct (isWhiteSpace c && isEmpty (trimEnd s)); reflexivity.
Qed.

Lemma toLowerCase_trim (s : string) :
  toLowerCase (trim s) = trim (toLowerCase s).
Proof.
  unfold trim. now rewrite toLowerCase_trimEnd, toLowerCase_trimStart.
Qed.

Lemma trimEnd_idem (s : string) : trimEnd (trimEnd s) = trimEnd s.
Proof.
  induction s as [|c s IH]; simpl; [reflexivity|].
  destruct (isWhiteSpace c && isEmpty (trimEnd s)) eqn:E; [reflexivity|].
  simpl. now rewrite IH, E.
Qed.

Lemma trimStart_starts_clean (s : string) : starts_clean (trimStart s).
Proof.
  induction s as [|c s IH]; simpl; [exact I|].
  destruct (isWhiteSpace c) eqn:E; [exact IH | exact E].
Qed.

Lemma trimStart_clean (s : string) : starts_clean s -> trimStart s = s.
Proof. destruct s as [|c s]; simpl; [reflexivity|]. now intros ->. Qed.

Lemma trimEnd_starts_clean (s : string) :
  starts_clean s -> starts_clean (trimEnd s).
Proof.
  destruct s as [|c s]; simpl; [exact id|]. intros E. now rewrite E.
Qed.

Lemma trim_idem (s : string) : trim (trim s) = trim s.
Proof.
  unfold trim.
  rewrite (trimStart_clean (trimEnd (trimStart s))).
  - apply trimEnd_idem.
  - apply trimEnd_starts_clean, trimStart_starts_clean.
Qed.

Lemma normalize_idem (s : string) : normalize (normalize s) = normalize s.
Proof.
  unfold normalize.
  now rewrite toLowerCase_trim, toLowerCase_idem, trim_idem.
Qed.

Lemma keys_normal_set (m : JSMap.t) (keyword v : string) :
  keys_normal m -> keys_normal (JSMap.set m (normalize keyword) v).
Proof.
  intros Hm k' v' Hin.
  destruct (In_set_inv _ _ _ _ _ Hin) as [H | E].
  - exact (Hm _ _ H).
  - inversion E. apply normalize_idem.
Qed.

Lemma keys_normal_act (cfg : Config) (a : Admin.Action) (m : JSMap.t) :
  keys_normal m -> keys_normal (Admin.act cfg m a).
Proof.
  destruct a as [fetch | keyword reply]; simpl; intros Hm.
  - unfold loadResponses.
    assert (G : forall os,
               (forall o, In o os ->
                          o = JSMap.Clear \/
                          exists kw v, o = JSMap.Set_ (normalize kw) v) ->
               forall m', keys_normal m' ->
                          keys_normal (JSMap.apply_ops m' os)).
    { induction os as [|o os IH]; intros Hos m' Hm'; [exact Hm'|].
      change (JSMap.apply_ops m' (o :: os))
        with (JSMap.apply_ops (JSMap.apply_op m' o) os).
      apply IH; [intros o' H; apply Hos; now right|].
      destruct (Hos o (or_introl eq_refl)) as [-> | (kw & v & ->)]; simpl.
      - intros k v [].
      - now apply keys_normal_set. }
    apply G; [|exact Hm].
    intros o Ho. unfold loadResponses_ops, loadResponses_try in Ho.
    destruct fetch as [|[rows|]]; simpl in Ho; try destruct Ho.
    destruct (0 <? List.length rows)%nat; [|destruct Ho].
    destruct Ho as [<- | Ho]; [now left | right].
    destruct (flat_map_row_ops_shape _ _ Ho)
      as (row & kw & r & _ & _ & _ & _ & _ & ->).
    now exists kw, (trim r).
  - now apply keys_normal_set.
Qed.

(** An invariant of the table: true of the empty [Map] of line 16 and
    kept by every action. *)
Lemma run_invariant (cfg : Config) (P : JSMap.t -> Prop) :
  P JSMap.empty ->
  (forall m a, P m -> P (Admin.act cfg m a)) ->
  forall actions, P (Admin.run cfg actions).
Proof.
  intros H0 Hstep actions. unfold Admin.run.
  generalize JSMap.empty H0.
  induction actions as [|a actions IH]; intros m Hm; [exact Hm|].
  simpl. apply IH. now apply Hstep.
Qed.

(** X6.  Normalizing twice is normalizing once, and every key the table
    lists is already normalized: a message whose body is a listed key,
    sent as it is listed, finds exactly the entry of that key. *)
Theorem listed_keys_are_normal :
  (forall s, normalize (normalize s) = normalize s) /\
  (forall cfg actions k v,
      In (k, v) (Admin.getResponses (Admin.run cfg actions)) ->
      normalize k = k /\
      JSMap.get (Admin.run cfg actions) (normalize k) = Some v).
Proof.
  split; [exact normalize_idem|].
  intros cfg actions k v Hin.
  assert (Hn : keys_normal (Admin.run cfg actions)).
  { apply run_invariant.
    - intros k' v' [].
    - intros m a. apply keys_normal_act. }
  pose proof (Hn _ _ Hin) as Hk. split; [exact Hk|].
  rewrite Hk.
  assert (Hnd : NoDup (map fst (Admin.run cfg actions))).
  { apply (run_invariant cfg (fun m => NoDup (map fst m))).
    - constructor.
    - intros m a. apply NoDup_keys_act. }
  now apply NoDup_keys_get.
Qed.

Lemma listed_keys_are_normal_witness :
  normalize "hello" = "hello" /\
  JSMap.get
    (Admin.run Sample.config
       [Admin.Load (Sample.rows [[" Hello "; "Hi there"]]);
        Admin.Add "BYE" "See ya"])
    (normalize "hello") = Some "Hi there".
Proof.
  apply (proj2 listed_keys_are_normal Sample.config
           [Admin.Load (Sample.rows [[" Hello "; "Hi there"]]);
            Admin.Add "BYE" "See ya"] "hello" "Hi there").
  vm_compute. left. reflexivity.
Defined.

(* ------------------------------------------------------------------ *)
(** * Manual entries *)

Lemma set_absent (m : JSMap.t) (k v : string) :
  JSMap.get m k = None -> JSMap.set m k v = (m ++ [(k, v)])%list.
Proof.
  induction m as [|[k0 v0] m IH]; simpl; [reflexivity|].
  destruct (String.eqb k0 k); [discriminate|]. intros H. now rewrite IH.
Qed.

Lemma get_Some_key_in (m : JSMap.t) (k v : string) :
  JSMap.get m k = Some v -> existsb (String.eqb k) (map fst m) = true.
Proof.
  intros H. apply existsb_eqb_In. apply get_In in H.
  now apply (in_map fst _ (k, v)).
Qed.

Lemma find_app_found {A : Type} (f : A -> bool) (l l' : list A) (x : A) :
  find f l = Some x -> find f (l ++ l') = Some x.
Proof.
  induction l as [|y l IH]; simpl; [discriminate|].
  destruct (f y); [trivial | exact IH].
Qed.

(** X7.  [addResponse] is an upsert by normalized keyword.  The new reply
    is what the exact lookup returns for the keyword in any letter case
    and padding, and no other key changes.  A keyword already present
    keeps its place in the iteration order; a new keyword goes last, so
    every message that had an answer before, and whose body is not the new
    keyword, keeps that answer. *)
Theorem addResponse_upsert :
  forall keyword reply responses,
    JSMap.get (addResponse keyword reply responses) (normalize keyword)
    = Some (trim reply) /\
    (forall k, k <> normalize keyword ->
               JSMap.get (addResponse keyword reply responses) k
               = JSMap.get responses k) /\
    (forall old, JSMap.get responses (normalize keyword) = Some old ->
                 map fst (addResponse keyword reply responses)
                 = map fst responses) /\
    (JSMap.get responses (normalize keyword) = None ->
     addResponse keyword reply responses
     = (responses ++ [(normalize keyword, trim reply)])%list /\
     forall messageBody v,
       messageBody <> normalize keyword ->
       lookupReply responses messageBody = Some v ->
       lookupReply (addResponse keyword reply responses) messageBody
       = Some v).
Proof.
  intros keyword reply responses. unfold addResponse.
  split; [apply get_set_same | split; [|split]].
  - intros k Hne. apply get_set_other. congruence.
  - intros old Hold. rewrite keys_set.
    now rewrite (get_Some_key_in _ _ _ Hold).
  - intros Hnone. split; [now apply set_absent|].
    intros messageBody v Hne Hlook.
    unfold lookupReply in *.
    rewrite get_set_other by congruence.
    destruct (negb (truthy_opt (JSMap.get responses messageBody)));
      [|exact Hlook].
    rewrite (set_absent _ _ _ Hnone). unfold JSMap.entries in *.
    destruct (find (fun e => includes messageBody (fst e)) responses)
      as [[k0 v0]|] eqn:Hfind.
    + now rewrite (find_app_found _ _ _ _ Hfind).
    + (* an exact entry would have been found by the scan *)
      destruct (JSMap.get responses messageBody) as [r|] eqn:Hget;
        [|discriminate].
      apply get_In in Hget.
      pose proof (find_none _ _ Hfind _ Hget) as Hfalse. simpl in Hfalse.
      rewrite includes_refl in Hfalse. discriminate.
Qed.

Lemma addResponse_upsert_witness :
  map fst (addResponse " CAT" "Purr" [("cat", "Meow"); ("dog", "Woof")])
  = map fst [("cat", "Meow"); ("dog", "Woof")] /\
  addResponse "Bird" "Tweet" [("cat", "Meow"); ("dog", "Woof")]
  = ([("cat", "Meow"); ("dog", "Woof")]
       ++ [(normalize "Bird", trim "Tweet")])%list /\
  lookupReply (addResponse "Bird" "Tweet" [("cat", "Meow"); ("dog", "Woof")])
    "bird dog" = Some "Woof".
Proof.
  pose proof (addResponse_upsert " CAT" "Purr"
                [("cat", "Meow"); ("dog", "Woof")]) as (_ & _ & Hkeep & _).
  pose proof (addResponse_upsert "Bird" "Tweet"
                [("cat", "Meow"); ("dog", "Woof")]) as (_ & _ & _ & Hnew).
  destruct (Hnew eq_refl) as [Happ Hsame].
  split; [exact (Hkeep "Meow" eq_refl) | split; [exact Happ|]].
  apply Hsame; [discriminate | reflexivity].
Defined.

(* ------------------------------------------------------------------ *)
(** * What the handler sends *)

Lemma lookupReply_sound (responses : JSMap.t) (messageBody r : string) :
  lookupReply responses messageBody = Some r ->
  exists k, In (k, r) responses /\ includes messageBody k = true.
Proof.
  unfold lookupReply, JSMap.entries. intros H.
  destruct (negb (truthy_opt (JSMap.get responses messageBody))).
  - destruct (find (fun e => includes messageBody (fst e)) responses)
      as [[k v]|] eqn:Hfind.
    + inversion H; subst. apply find_some in Hfind as [Hin Hk].
      now exists k.
    + apply get_In in H. exists messageBody. split; [exact H|].
      apply includes_refl.
  - apply get_In in H. exists messageBody. split; [exact H|].
    apply includes_refl.
Qed.

(** X8.  Every keyword reply has a source: when the handler answers with
    a keyword reply, the message is not from the bot itself and not a
    status broadcast, it passed the group gate if it is a group message,
    and the text is the expansion of a non-empty reply stored under a key
    that occurs in the normalized body. *)
Theorem keyword_reply_has_source :
  forall cfg responses now message contact chat text,
    handleMessage cfg responses now message contact chat = Replied text ->
    from message <> "status@broadcast" /\
    fromMe message = false /\
    (isGroup chat = true -> shouldRespondInGroup cfg chat message = true) /\
    exists k v,
      In (k, v) (JSMap.entries responses) /\
      includes (normalize (body message)) k = true /\
      v <> "" /\
      text = processDynamicContent v contact message chat now.
Proof.
  intros cfg responses now message contact chat text. unfold handleMessage.
  destruct (String.eqb_spec (from message) "status@broadcast");
    [discriminate|].
  destruct (fromMe message); [discriminate|].
  destruct (isGroup chat && negb (shouldRespondInGroup cfg chat message))
    eqn:Hgate; [discriminate|].
  destruct (lookupReply responses (normalize (body message))) as [r|]
    eqn:Hlook.
  - destruct (truthy r) eqn:Hr.
    + intros E. inversion E; subst. repeat split; try assumption.
      * intros Hg. rewrite Hg in Hgate.
        now destruct (shouldRespondInGroup cfg chat message).
      * destruct (lookupReply_sound _ _ _ Hlook) as (k & Hin & Hk).
        exists k, r. repeat split; try assumption.
        intros ->. discriminate.
    + unfold defaultBranch. destruct (defaultReply cfg) as [d|];
        [destruct (truthy d && shouldSendDefaultReply cfg chat)|];
        discriminate.
  - unfold defaultBranch. destruct (defaultReply cfg) as [d|];
      [destruct (truthy d && shouldSendDefaultReply cfg chat)|];
      discriminate.
Qed.

Lemma keyword_reply_has_source_witness :
  from (Sample.text "Hello there") <> "status@broadcast" /\
  fromMe (Sample.text "Hello there") = false /\
  (isGroup Sample.group = true ->
   shouldRespondInGroup Sample.config Sample.group
     (Sample.text "Hello there") = true) /\
  exists k v,
    In (k, v) (JSMap.entries [("hello", "Hi {name}")]) /\
    includes (normalize (body (Sample.text "Hello there"))) k = true /\
    v <> "" /\
    "Hi Ann" = processDynamicContent v Sample.ann
                 (Sample.text "Hello there") Sample.group Sample.now.
Proof.
  apply (keyword_reply_has_source Sample.config [("hello", "Hi {name}")]
           Sample.now (Sample.text "Hello there") Sample.ann Sample.group
           "Hi Ann").
  reflexivity.
Defined.

(** X9.  The default reply goes out only when it is configured and not
    empty, the lookup ended without a non-empty reply, the message is not
    from the bot itself and not a status broadcast, and the chat is a
    direct chat or a group that passed the gate with
    [sendDefaultReplyInGroups] set. *)
Theorem default_reply_conditions :
  forall cfg responses now message contact chat text,
    handleMessage cfg responses now message contact chat
    = DefaultReplied text ->
    defaultReply cfg = Some text /\ text <> "" /\
    truthy_opt (lookupReply responses (normalize (body message))) = false /\
    from message <> "status@broadcast" /\
    fromMe message = false /\
    (isGroup chat = true ->
     shouldRespondInGroup cfg chat message = true /\
     sendDefaultReplyInGroups (groupSettings cfg) = true).
Proof.
  intros cfg responses now message contact chat text. unfold handleMessage.
  destruct (String.eqb_spec (from message) "status@broadcast");
    [discriminate|].
  destruct (fromMe message); [discriminate|].
  destruct (isGroup chat && negb (shouldRespondInGroup cfg chat message))
    eqn:Hgate; [discriminate|].
  assert (Hdefault :
            defaultBranch cfg chat = DefaultReplied text ->
            defaultReply cfg = Some text /\ text <> "" /\
            (isGroup chat = true ->
             sendDefaultReplyInGroups (groupSettings cfg) = true)).
  { unfold defaultBranch, shouldSendDefaultReply.
    destruct (defaultReply cfg) as [d|]; [|discriminate].
    destruct (truthy d) eqn:Hd; [|discriminate]. simpl.
    destruct (isGroup chat).
    - destruct (sendDefaultReplyInGroups (groupSettings cfg));
        [|discriminate].
      intros E. inversion E; subst. repeat split. intros ->. discriminate.
    - intros E. inversion E; subst. repeat split; [|discriminate].
      intros ->. discriminate. }
  assert (Hpassed : isGroup chat = true ->
                    shouldRespondInGroup cfg chat message = true).
  { intros Hg. rewrite Hg in Hgate.
    now destruct (shouldRespondInGroup cfg chat message). }
  destruct (lookupReply responses (normalize (body message))) as [r|].
  - simpl. destruct (truthy r); [discriminate|].
    intros E. destruct (Hdefault E) as (H1 & H2 & H3).
    repeat split; auto.
  - intros E. destruct (Hdefault E) as (H1 & H2 & H3).
    repeat split; auto.
Qed.

Lemma default_reply_conditions_witness :
  defaultReply Sample.config = Some "Sorry, I did not get that." /\
  "Sorry, I did not get that." <> "" /\
  truthy_opt (lookupReply [("hello", "Hi")]
                (normalize (body (Sample.text "what?")))) = false /\
  from (Sample.text "what?") <> "status@broadcast" /\
  fromMe (Sample.text "what?") = false /\
  (isGroup Sample.direct = true ->
   shouldRespondInGroup Sample.config Sample.direct (Sample.text "what?")
   = true /\
   sendDefaultReplyInGroups (groupSettings Sample.config) = true).
Proof.
  apply (default_reply_conditions Sample.config [("hello", "Hi")] Sample.now
           (Sample.text "what?") Sample.ann Sample.direct
           "Sorry, I did not get that.").
  reflexivity.
Defined.

(** X10.  An exact match with a non-empty stored reply always wins: the
    handler answers with the expansion of the reply stored under the
    normalized body, whatever other keys occur in the body and wherever
    they stand in the table. *)
Theorem exact_match_wins_when_reply_not_empty :
  forall cfg responses now message contact chat r,
    from message <> "status@broadcast" ->
    fromMe message = false ->
    isGroup chat && negb (shouldRespondInGroup cfg chat message) = false ->
    JSMap.get responses (normalize (body message)) = Some r ->
    r <> "" ->
    handleMessage cfg responses now message contact chat =
    Replied (processDynamicContent r contact message chat now).
Proof.
  intros cfg responses now message contact chat r Hfrom Hme Hgate Hget Hr.
  assert (Ht : truthy r = true) by (destruct r; [now elim Hr | reflexivity]).
  rewrite (handleMessage_past_gates _ _ _ _ _ _ Hfrom Hme Hgate).
  rewrite (lookupReply_exact _ _ _ Hget Ht). now rewrite Ht.
Qed.

Lemma exact_match_wins_when_reply_not_empty_witness :
  handleMessage Sample.config [("h", "x"); ("hi", "Hello!")] Sample.now
    (Sample.text " Hi") Sample.ann Sample.direct =
  Replied (processDynamicContent "Hello!" Sample.ann (Sample.text " Hi")
             Sample.direct Sample.now).
Proof.
  apply (exact_match_wins_when_reply_not_empty Sample.config
           [("h", "x"); ("hi", "Hello!")] Sample.now (Sample.text " Hi")
           Sample.ann Sample.direct "Hello!");
    first [discriminate | reflexivity].
Defined.

(** X11.  A table that holds the empty key and no empty reply answers
    every message that passes the early returns with a keyword reply: the
    default reply is never sent and no such message is left unanswered. *)
Theorem empty_key_shadows_default :
  forall cfg responses now message contact chat e,
    JSMap.get responses "" = Some e ->
    (forall k v, In (k, v) (JSMap.entries responses) -> v <> "") ->
    from message <> "status@broadcast" ->
    fromMe message = false ->
    isGroup chat && negb (shouldRespondInGroup cfg chat message) = false ->
    exists k v,
      In (k, v) (JSMap.entries responses) /\
      handleMessage cfg responses now message contact chat =
      Replied (processDynamicContent v contact message chat now).
Proof.
  intros cfg responses now message contact chat e He Hall Hfrom Hme Hgate.
  rewrite (handleMessage_past_gates _ _ _ _ _ _ Hfrom Hme Hgate).
  assert (Hsome : exists r, lookupReply responses (normalize (body message))
                            = Some r).
  { unfold lookupReply, JSMap.entries.
    destruct (negb (truthy_opt
                      (JSMap.get responses (normalize (body message)))))
      eqn:Hfalsy.
    - destruct (find (fun x => includes (normalize (body message)) (fst x))
                     responses) as [[k v]|] eqn:Hfind; [now exists v|].
      apply get_In in He.
      pose proof (find_none _ _ Hfind _ He) as Hno. simpl in Hno.
      rewrite includes_empty in Hno. discriminate.
    - destruct (JSMap.get responses (normalize (body message))) as [r|];
        [now exists r | discriminate]. }
  destruct Hsome as [r Hr]. rewrite Hr.
  destruct (lookupReply_sound _ _ _ Hr) as (k & Hin & _).
  exists k, r. split; [exact Hin|].
  assert (Ht : truthy r = true).
  { pose proof (Hall k r Hin). destruct r; [congruence | reflexivity]. }
  now rewrite Ht.
Qed.

Lemma empty_key_shadows_default_witness :
  exists k v,
    In (k, v) (JSMap.entries [("cat", "Meow"); ("", "Say cat")]) /\
    handleMessage Sample.config [("cat", "Meow"); ("", "Say cat")]
      Sample.now (Sample.text "dog") Sample.ann Sample.direct =
    Replied (processDynamicContent v Sample.ann (Sample.text "dog")
               Sample.direct Sample.now).
Proof.
  apply (empty_key_shadows_default Sample.config
           [("cat", "Meow"); ("", "Say cat")] Sample.now (Sample.text "dog")
           Sample.ann Sample.direct "Say cat").
  - reflexivity.
  - intros k v [E | [E | []]]; inversion E; discriminate.
  - discriminate.
  - reflexivity.
  - reflexivity.
Defined.

(* ------------------------------------------------------------------ *)
(** * Editing the allow-list *)

Lemma allowedGroups_add (groupId : string) (cfg : Config) :
  allowedGroups (groupSettings (addToAllowedGroups groupId cfg)) =
  if existsb (String.eqb groupId) (allowedGroups (groupSettings cfg))
  then allowedGroups (groupSettings cfg)
  else (allowedGroups (groupSettings cfg) ++ [groupId])%list.
Proof.
  unfold addToAllowedGroups.
  now destruct (existsb (String.eqb groupId)
                  (allowedGroups (groupSettings cfg))).
Qed.

Lemma mention_add (groupId : string) (cfg : Config) :
  respondOnlyWhenMentioned (groupSettings (addToAllowedGroups groupId cfg))
  = respondOnlyWhenMentioned (groupSettings cfg).
Proof.
  unfold addToAllowedGroups.
  now destruct (existsb (String.eqb groupId)
                  (allowedGroups (groupSettings cfg))).
Qed.

(** X12.  After [addToAllowedGroups], and unless mention-only is set, the
    gate allows a group message exactly when its chat is the group just
    added or one that was on the list before, whatever [adminOnly] and
    [respondToAll] are.  Adding a group that is already listed changes
    nothing in the configuration; a group that is not listed is put at the
    end of the list. *)
Theorem allow_list_add_opens_group :
  forall cfg groupId chat message,
    respondOnlyWhenMentioned (groupSettings cfg) = false ->
    (shouldRespondInGroup (addToAllowedGroups groupId cfg) chat message
     = true <->
     chatId chat = groupId \/
     In (chatId chat) (allowedGroups (groupSettings cfg))) /\
    (In groupId (allowedGroups (groupSettings cfg)) ->
     addToAllowedGroups groupId cfg = cfg) /\
    (~ In groupId (allowedGroups (groupSettings cfg)) ->
     allowedGroups (groupSettings (addToAllowedGroups groupId cfg))
     = (allowedGroups (groupSettings cfg) ++ [groupId])%list) /\
    addToAllowedGroups groupId (addToAllowedGroups groupId cfg)
    = addToAllowedGroups groupId cfg.
Proof.
  intros cfg groupId chat message Hm. split; [|split; [|split]]; cycle 1.
  - intros Hin. unfold addToAllowedGroups.
    apply existsb_eqb_In in Hin. now rewrite Hin.
  - intros Hnot. rewrite allowedGroups_add.
    destruct (existsb (String.eqb groupId)
                (allowedGroups (groupSettings cfg))) eqn:E; [|reflexivity].
    apply existsb_eqb_In in E. contradiction.
  - unfold addToAllowedGroups at 1. rewrite allowedGroups_add.
    destruct (existsb (String.eqb groupId)
                (allowedGroups (groupSettings cfg))) eqn:E.
    + now rewrite E.
    + assert (E' : existsb (String.eqb groupId)
                     (allowedGroups (groupSettings cfg) ++ [groupId]) = true).
      { apply existsb_eqb_In, in_app_iff. right. now left. }
      now rewrite E'.
  - unfold shouldRespondInGroup. rewrite mention_add, Hm, allowedGroups_add.
    destruct (existsb (String.eqb groupId)
                (allowedGroups (groupSettings cfg))) eqn:E.
    + apply existsb_eqb_In in E.
      destruct (allowedGroups (groupSettings cfg)) as [|g l] eqn:Hl;
        [destruct E|].
      cbn [List.length Nat.ltb Nat.leb]. rewrite existsb_eqb_In.
      split; [now right | intros [-> | H]; assumption].
    + assert (Hlen : (0 <? List.length
                             (allowedGroups (groupSettings cfg) ++ [groupId])
                       )%nat = true).
      { apply Nat.ltb_lt. rewrite length_app. simpl. lia. }
      rewrite Hlen, existsb_eqb_In, in_app_iff. simpl.
      split; [intros [H | [H | []]]; auto | intros [H | H]; auto].
Qed.

Lemma allow_list_add_opens_group_witness :
  (shouldRespondInGroup
     (addToAllowedGroups "120363000000000000@g.us" Sample.config)
     Sample.group (Sample.text "hello") = true <->
   chatId Sample.group = "120363000000000000@g.us" \/
   In (chatId Sample.group) (allowedGroups (groupSettings Sample.config)))
  /\
  addToAllowedGroups "a@g.us"
    (with_allowedGroups ["a@g.us"; "b@g.us"] Sample.config)
  = with_allowedGroups ["a@g.us"; "b@g.us"] Sample.config /\
  allowedGroups
    (groupSettings
       (addToAllowedGroups "c@g.us"
          (with_allowedGroups ["a@g.us"; "b@g.us"] Sample.config)))
  = (["a@g.us"; "b@g.us"] ++ ["c@g.us"])%list.
Proof.
  split; [|split].
  - exact (proj1 (allow_list_add_opens_group Sample.config
                    "120363000000000000@g.us" Sample.group
                    (Sample.text "hello") eq_refl)).
  - apply (proj1 (proj2 (allow_list_add_opens_group
                           (with_allowedGroups ["a@g.us"; "b@g.us"]
                              Sample.config)
                           "a@g.us" Sample.group (Sample.text "hello")
                           eq_refl))).
    simpl. now left.
  - apply (proj1 (proj2 (proj2 (allow_list_add_opens_group
                                  (with_allowedGroups ["a@g.us"; "b@g.us"]
                                     Sample.config)
                                  "c@g.us" Sample.group (Sample.text "hello")
                                  eq_refl)))).
    simpl. intuition discriminate.
Defined.

Lemma count_remove_first (groupId x : string) (l : list string) :
  count_occ string_dec (remove_first groupId l) x =
  if string_dec groupId x then pred (count_occ string_dec l x)
  else count_occ string_dec l x.
Proof.
  induction l as [|g l IH]; simpl.
  - now destruct (string_dec groupId x).
  - destruct (String.eqb_spec g groupId) as [->|ne].
    + destruct (string_dec groupId x); reflexivity.
    + simpl. destruct (string_dec g x) as [->|ne'].
      * destruct (string_dec groupId x); [congruence | now rewrite IH].
      * exact IH.
Qed.

Lemma remove_first_split (groupId : string) (pre post : list string) :
  ~ In groupId pre ->
  remove_first groupId (pre ++ groupId :: post) = (pre ++ post)%list.
Proof.
  induction pre as [|g pre IH]; intros Hnot; simpl.
  - now rewrite String.eqb_refl.
  - destruct (String.eqb_spec g groupId) as [->|ne].
    + elim Hnot. now left.
    + f_equal. apply IH. intros H. apply Hnot. now right.
Qed.

(** X13.  [removeFromAllowedGroups] takes out one occurrence of the group
    id, the first: the ids before the first occurrence and all ids behind
    it stay, in their order; a group that is not listed leaves the
    configuration as it is.  So the count of the id drops by one, the
    count of every other id stays, and the group is off the list
    afterwards only if it was listed at most once. *)
Theorem allow_list_remove_takes_one :
  forall cfg groupId,
    let before := allowedGroups (groupSettings cfg) in
    let after :=
      allowedGroups (groupSettings (removeFromAllowedGroups groupId cfg)) in
    (forall pre post,
        before = (pre ++ groupId :: post)%list -> ~ In groupId pre ->
        after = (pre ++ post)%list) /\
    (~ In groupId before -> removeFromAllowedGroups groupId cfg = cfg) /\
    count_occ string_dec after groupId
    = pred (count_occ string_dec before groupId) /\
    (forall x, x <> groupId ->
               count_occ string_dec after x = count_occ string_dec before x) /\
    (NoDup before -> ~ In groupId after).
Proof.
  intros cfg groupId before after.
  assert (Hsplit : forall pre post,
             before = (pre ++ groupId :: post)%list -> ~ In groupId pre ->
             after = (pre ++ post)%list).
  { intros pre post Hb Hnot. subst after. unfold removeFromAllowedGroups.
    fold before. rewrite Hb.
    assert (E : existsb (String.eqb groupId) (pre ++ groupId :: post) = true).
    { apply existsb_eqb_In, in_app_iff. right. now left. }
    rewrite E. cbn [with_allowedGroups groupSettings allowedGroups].
    now apply remove_first_split. }
  assert (Hsame : ~ In groupId before ->
                  removeFromAllowedGroups groupId cfg = cfg).
  { intros Hnot. unfold removeFromAllowedGroups. fold before.
    destruct (existsb (String.eqb groupId) before) eqn:E; [|reflexivity].
    apply existsb_eqb_In in E. contradiction. }
  split; [exact Hsplit | split; [exact Hsame|]].
  assert (Hafter : after = remove_first groupId before \/
                   (after = before /\ ~ In groupId before)).
  { subst after before. unfold removeFromAllowedGroups.
    destruct (existsb (String.eqb groupId)
                (allowedGroups (groupSettings cfg))) eqn:E.
    - left. reflexivity.
    - right. split; [reflexivity|]. intros Hin.
      apply existsb_eqb_In in Hin. congruence. }
  assert (Hcount : forall x,
             count_occ string_dec after x =
             if string_dec groupId x
             then pred (count_occ string_dec before x)
             else count_occ string_dec before x).
  { intros x. destruct Hafter as [-> | [-> Hnot]].
    - apply count_remove_first.
    - destruct (string_dec groupId x) as [<-|]; [|reflexivity].
      apply (count_occ_not_In string_dec) in Hnot. now rewrite Hnot. }
  repeat split.
  - rewrite Hcount. now destruct (string_dec groupId groupId).
  - intros x Hne. rewrite Hcount.
    destruct (string_dec groupId x); [congruence | reflexivity].
  - intros Hnd Hin.
    apply (count_occ_In string_dec) in Hin.
    rewrite Hcount in Hin.
    destruct (string_dec groupId groupId); [|congruence].
    pose proof (proj1 (NoDup_count_occ string_dec before) Hnd groupId).
    lia.
Qed.

Lemma allow_list_remove_takes_one_witness :
  ~ In "b@g.us"
      (allowedGroups
         (groupSettings
            (removeFromAllowedGroups "b@g.us"
               (with_allowedGroups ["a@g.us"; "b@g.us"] Sample.config)))) /\
  allowedGroups
    (groupSettings
       (removeFromAllowedGroups "b@g.us"
          (with_allowedGroups ["b@g.us"; "a@g.us"; "b@g.us"] Sample.config)))
  = ([] ++ ["a@g.us"; "b@g.us"])%list /\
  removeFromAllowedGroups "c@g.us"
    (with_allowedGroups ["a@g.us"; "b@g.us"] Sample.config)
  = with_allowedGroups ["a@g.us"; "b@g.us"] Sample.config.
Proof.
  split; [|split].
  - apply (proj2 (proj2 (proj2 (proj2
             (allow_list_remove_takes_one
                (with_allowedGroups ["a@g.us"; "b@g.us"] Sample.config)
                "b@g.us"))))).
    repeat constructor; simpl; intuition discriminate.
  - apply (proj1 (allow_list_remove_takes_one
                    (with_allowedGroups ["b@g.us"; "a@g.us"; "b@g.us"]
                       Sample.config) "b@g.us")).
    + reflexivity.
    + intros [].
  - apply (proj1 (proj2 (allow_list_remove_takes_one
                           (with_allowedGroups ["a@g.us"; "b@g.us"]
                              Sample.config) "c@g.us"))).
    simpl. intuition discriminate.
Defined.

Lemma find_author_unique (message : Message) (l : list Participant)
  (p : Participant) :
  NoDup (map pid l) -> In p l -> author message = Some (pid p) ->
  find (isAuthor message) l = Some p.
Proof.
  intros Hnd Hin Hauth. unfold isAuthor. rewrite Hauth.
  induction l as [|q l IH]; simpl; [destruct Hin|].
  inversion Hnd as [|? ? Hnotin Hnd']; subst.
  destruct Hin as [-> | Hin].
  - now rewrite String.eqb_refl.
  - destruct (String.eqb_spec (pid q) (pid p)) as [E|ne]; [|now apply IH].
    elim Hnotin. rewrite E. now apply in_map.
Qed.

(** X14.  In admin-only mode (mention-only off, allow-list empty) a group
    message is allowed only if its author is a participant of the chat
    marked admin; a message without author is denied; when no two
    participants share an id, the message of a participant is allowed
    exactly when that participant is admin.  The value of [respondToAll]
    plays no part. *)
Theorem admin_only_needs_admin_author :
  forall cfg chat message,
    respondOnlyWhenMentioned (groupSettings cfg) = false ->
    allowedGroups (groupSettings cfg) = [] ->
    adminOnly (groupSettings cfg) = true ->
    (shouldRespondInGroup cfg chat message = true ->
     exists p, In p (participants chat) /\
               author message = Some (pid p) /\ isAdmin p = true) /\
    (author message = None ->
     shouldRespondInGroup cfg chat message = false) /\
    (forall p, NoDup (map pid (participants chat)) ->
               In p (participants chat) ->
               author message = Some (pid p) ->
               shouldRespondInGroup cfg chat message = isAdmin p).
Proof.
  intros cfg chat message Hm Hl Ha. unfold shouldRespondInGroup.
  rewrite Hm, Hl, Ha. cbn [List.length Nat.ltb Nat.leb]. repeat split.
  - destruct (find (isAuthor message) (participants chat)) as [p|] eqn:Hf;
      [|discriminate].
    intros Hp. apply find_some in Hf as [Hin Hauth].
    exists p. repeat split; try assumption.
    unfold isAuthor in Hauth. destruct (author message) as [a|];
      [|discriminate].
    apply String.eqb_eq in Hauth. now subst.
  - intros Hnone. rewrite find_none_iff; [reflexivity|].
    intros p _. unfold isAuthor. now rewrite Hnone.
  - intros p Hnd Hin Hauth.
    now rewrite (find_author_unique _ _ _ Hnd Hin Hauth).
Qed.

Lemma admin_only_needs_admin_author_witness :
  shouldRespondInGroup
    {| hasHeader := true; defaultReply := None;
       groupSettings :=
         {| respondToAll := true; respondOnlyWhenMentioned := false;
            adminOnly := true; allowedGroups := [];
            sendDefaultReplyInGroups := false |};
       caseSensitive := false; partialMatch := true |}
    Sample.group
    {| from := "120363000000000000@g.us"; fromMe := false; body := "hi";
       mentionedIds := []; author := None |} = false.
Proof.
  apply (admin_only_needs_admin_author
           {| hasHeader := true; defaultReply := None;
              groupSettings :=
                {| respondToAll := true; respondOnlyWhenMentioned := false;
                   adminOnly := true; allowedGroups := [];
                   sendDefaultReplyInGroups := false |};
              caseSensitive := false; partialMatch := true |});
    reflexivity.
Defined.

(* ------------------------------------------------------------------ *)
(** * One replacement pass *)

Lemma append_empty_r (s : string) : s ++ "" = s.
Proof. induction s as [|c s IH]; simpl; [reflexivity | now rewrite IH]. Qed.

Lemma append_assoc (a b c : string) : (a ++ b) ++ c = a ++ (b ++ c).
Proof. induction a as [|x a IH]; simpl; [reflexivity | now rewrite IH]. Qed.

Lemma prefix_cons (a b : ascii) (p s : string) :
  String.prefix (String a p) (String b s) =
  if ascii_dec a b then String.prefix p s else false.
Proof. reflexivity. Qed.

Lemma prefix_split (pat : string) :
  forall s, String.prefix pat s = true ->
            s = pat ++ drop (String.length pat) s.
Proof.
  induction pat as [|a pat IH]; intros s H; [reflexivity|].
  destruct s as [|b s]; [discriminate|].
  rewrite prefix_cons in H. destruct (ascii_dec a b) as [->|]; [|discriminate].
  simpl. f_equal. now apply IH.
Qed.

Lemma prefix_append (pat s : string) : String.prefix pat (pat ++ s) = true.
Proof.
  induction pat as [|a pat IH]; [apply prefix_empty|].
  simpl append. rewrite prefix_cons.
  destruct (ascii_dec a a); [exact IH | congruence].
Qed.

Lemma drop_append (a b : string) : drop (String.length a) (a ++ b) = b.
Proof. induction a as [|x a IH]; simpl; [now destruct b | exact IH]. Qed.

Lemma drop_empty (n : nat) : drop n "" = "".
Proof. now destruct n. Qed.

Lemma replaceScan_cons (pat repl before : string) (c : ascii) (s : string) :
  replaceScan pat repl before 0 (String c s) =
  if String.prefix pat (String c s)
  then getSubstitution pat before (drop (String.length pat) (String c s)) repl
       ++ replaceScan pat repl (before ++ String c "")
            (String.length pat - 1) s
  else String c (replaceScan pat repl (before ++ String c "") 0 s).
Proof. reflexivity. Qed.

(** With the replacement [$&] every match is put back. *)
Lemma replaceScan_dollar_amp (pat : string) :
  pat <> "" ->
  forall s before skip, replaceScan pat "$&" before skip s = drop skip s.
Proof.
  intros Hpat. induction s as [|c s IH]; intros before skip.
  - now rewrite drop_empty.
  - destruct skip as [|k]; [|apply IH].
    rewrite replaceScan_cons.
    destruct (String.prefix pat (String c s)) eqn:Hp.
    + rewrite IH. destruct pat as [|a pat]; [now elim Hpat|].
      rewrite prefix_cons in Hp.
      destruct (ascii_dec a c) as [->|]; [|discriminate].
      cbn [getSubstitution Ascii.eqb Bool.eqb String.length Nat.sub].
      rewrite Nat.sub_0_r, append_empty_r. simpl. f_equal.
      symmetry. now apply prefix_split.
    + now rewrite IH.
Qed.

(** X15.  A context value is read as a replacement pattern: the value
    [$&] puts every occurrence of its token back, so for a contact whose
    name is [$&] the pass for the name token changes nothing and the
    token stays in the reply. *)
Theorem dollar_amp_value_keeps_token :
  (forall pat s, pat <> "" -> replaceAll pat "$&" s = s) /\
  (forall reply contact message chat now,
      name contact = Some "$&" ->
      processDynamicContent reply contact message chat now =
      fold_left replace_step (tl (replacements contact message chat now))
                reply).
Proof.
  split.
  - intros pat s Hpat. unfold replaceAll.
    now rewrite (replaceScan_dollar_amp pat Hpat).
  - intros reply contact message chat now Hname.
    unfold processDynamicContent, replacements. cbn [fold_left tl].
    assert (E : replace_step reply
                  ("{name}",
                   or_else (name contact) (or_else (pushname contact) "there"))
                = reply).
    { unfold replace_step. cbn [fst snd]. rewrite Hname.
      cbn [or_else truthy isEmpty negb]. unfold replaceAll.
      now rewrite replaceScan_dollar_amp by discriminate. }
    now rewrite E.
Qed.

Lemma dollar_amp_value_keeps_token_witness :
  replaceAll "{name}" "$&" "Hi {name}, {name}!" = "Hi {name}, {name}!" /\
  processDynamicContent "Hi {name}"
    {| name := Some "$&"; pushname := None; number := "1" |}
    (Sample.text "x") Sample.direct Sample.now =
  fold_left replace_step
    (tl (replacements {| name := Some "$&"; pushname := None; number := "1" |}
           (Sample.text "x") Sample.direct Sample.now))
    "Hi {name}".
Proof.
  split.
  - apply (proj1 dollar_amp_value_keeps_token). discriminate.
  - apply (proj2 dollar_amp_value_keeps_token). reflexivity.
Defined.

Lemma getSubstitution_cons2 (matched before after : string) (c d : ascii)
  (rest : string) :
  Ascii.eqb c "$" = false ->
  getSubstitution matched before after (String c (String d rest)) =
  String c (getSubstitution matched before after (String d rest)).
Proof. intros H. cbn [getSubstitution]. now rewrite H. Qed.

(** A replacement text without dollar sign is inserted as it is. *)
Lemma getSubstitution_plain (matched before after repl : string) :
  includes repl "$" = false ->
  getSubstitution matched before after repl = repl.
Proof.
  induction repl as [|c tail IH]; intros H; [reflexivity|].
  rewrite includes_unfold in H. apply orb_false_iff in H as [Hp Hi].
  destruct tail as [|d rest]; [reflexivity|].
  assert (Hc : Ascii.eqb c "$" = false).
  { rewrite prefix_cons in Hp. destruct (ascii_dec "$" c) as [<-|ne].
    - discriminate.
    - apply Ascii.eqb_neq. congruence. }
  rewrite (getSubstitution_cons2 _ _ _ _ _ _ Hc). f_equal. now apply IH.
Qed.

Section PlainReplacement.

Variables (pat repl : string).
Hypothesis plain : includes repl "$" = false.

Lemma replaceScan_plain_before :
  forall s b1 b2 k,
    replaceScan pat repl b1 k s = replaceScan pat repl b2 k s.
Proof.
  induction s as [|c s IH]; intros b1 b2 k; [reflexivity|].
  destruct k as [|k]; [|apply IH].
  rewrite !replaceScan_cons.
  rewrite !(getSubstitution_plain _ _ _ _ plain).
  rewrite (IH (b1 ++ String c "") (b2 ++ String c "")).
  now rewrite (IH (b1 ++ String c "") (b2 ++ String c "") 0).
Qed.

Lemma replaceScan_plain_skip :
  forall s b k,
    replaceScan pat repl b k s = replaceScan pat repl b 0 (drop k s).
Proof.
  induction s as [|c s IH]; intros b k.
  - now rewrite drop_empty.
  - destruct k as [|k]; [reflexivity|].
    cbn [replaceScan drop]. rewrite IH. apply replaceScan_plain_before.
Qed.

End PlainReplacement.

(** X16.  One replacement pass keeps the text before the first occurrence
    of the token and puts the value in its place as it is, when the value
    holds no dollar sign and the first character of the token (the opening
    brace) does not occur before that occurrence; the pass then goes on
    behind the token. *)
Theorem replacement_pass_inserts_plain_value :
  forall (first : ascii) (rest value pre post : string),
    includes value "$" = false ->
    includes pre (String first "") = false ->
    replaceAll (String first rest) value (pre ++ String first rest ++ post)
    = pre ++ value ++ replaceAll (String first rest) value post.
Proof.
  intros first rest value pre post Hplain Hpre. unfold replaceAll.
  enough (G : forall before,
             replaceScan (String first rest) value before 0
               (pre ++ String first rest ++ post)
             = pre ++ value
                   ++ replaceScan (String first rest) value "" 0 post)
    by apply G.
  induction pre as [|c pre IH]; intros before.
  - cbn [append]. rewrite replaceScan_cons.
    change (String first (rest ++ post)) with (String first rest ++ post).
    rewrite prefix_append, (getSubstitution_plain _ _ _ _ Hplain).
    f_equal. rewrite (replaceScan_plain_skip _ _ Hplain).
    cbn [String.length Nat.sub]. rewrite Nat.sub_0_r, drop_append.
    apply (replaceScan_plain_before _ _ Hplain).
  - rewrite includes_unfold in Hpre.
    apply orb_false_iff in Hpre as [Hp Hi].
    cbn [append]. rewrite replaceScan_cons.
    assert (Hno : forall tail,
               String.prefix (String first rest) (String c tail) = false).
    { intros tail. rewrite prefix_cons in *.
      destruct (ascii_dec first c); [|reflexivity].
      now rewrite prefix_empty in Hp. }
    rewrite Hno. f_equal. now apply IH.
Qed.

Lemma replacement_pass_inserts_plain_value_witness :
  replaceAll "{name}" "Ann" ("Hi " ++ "{name}" ++ ", bye {name}")
  = "Hi " ++ "Ann" ++ replaceAll "{name}" "Ann" ", bye {name}".
Proof.
  apply (replacement_pass_inserts_plain_value "{" "name}" "Ann" "Hi "
           ", bye {name}"); reflexivity.
Defined.

(* ------------------------------------------------------------------ *)
(** * Group sends *)

(** X17.  A broadcast sends the message, unchanged, to exactly the chats
    that an id of the allow-list resolves to and that are groups: an id
    that does not resolve, or resolves to a direct chat, is passed over
    and the ids after it are still served; there are never more sends
    than ids on the list. *)
Theorem broadcast_reaches_allowed_groups :
  forall cfg getChatById message,
    (forall chat text,
        In (chat, text) (Admin.broadcastToGroups cfg getChatById message)
        <->
        text = message /\ isGroup chat = true /\
        exists groupId,
          In groupId (allowedGroups (groupSettings cfg)) /\
          getChatById groupId = Some chat) /\
    List.length (Admin.broadcastToGroups cfg getChatById message)
    <= List.length (allowedGroups (groupSettings cfg)).
Proof.
  intros cfg getChatById message. unfold Admin.broadcastToGroups. split.
  - intros chat text. rewrite in_flat_map. unfold Admin.sendToGroup. split.
    + intros (groupId & Hin & Hsend).
      destruct (getChatById groupId) as [c|] eqn:Hc; [|destruct Hsend].
      destruct (isGroup c) eqn:Hg; [|destruct Hsend].
      destruct Hsend as [E | []]. inversion E; subst.
      repeat split; try assumption. now exists groupId.
    + intros (-> & Hg & groupId & Hin & Hc).
      exists groupId. split; [exact Hin|]. rewrite Hc, Hg. now left.
  - induction (allowedGroups (groupSettings cfg)) as [|g l IH];
      simpl; [lia|].
    rewrite length_app.
    assert (List.length (Admin.sendToGroup getChatById g message) <= 1).
    { unfold Admin.sendToGroup. destruct (getChatById g) as [c|];
        [destruct (isGroup c)|]; simpl; lia. }
    lia.
Qed.

(* ------------------------------------------------------------------ *)
(** * The configuration read from the environment *)

Lemma is_true_false (v : option string) :
  v <> Some "true" -> Env.is_true v = false.
Proof.
  destruct v as [s|]; simpl; [|reflexivity]. intros H.
  destruct (String.eqb_spec s "true"); [subst; now elim H | reflexivity].
Qed.

(** X18.  Whatever the environment holds, the configuration has
    [respondToAll], [partialMatch] and [hasHeader] true: the first row of
    the sheet is always taken for a header, and unless mention-only,
    admin-only or a non-empty allow-list is set, every group message
    passes the gate, also with RESPOND_TO_ALL set to [false]. *)
Theorem env_cannot_switch_off_groups :
  forall env,
    respondToAll (groupSettings (Env.config env)) = true /\
    partialMatch (Env.config env) = true /\
    startRow (Env.config env) = 1 /\
    (forall chat message,
        env "RESPOND_ONLY_WHEN_MENTIONED" <> Some "true" ->
        env "ADMIN_ONLY" <> Some "true" ->
        env "ALLOWED_GROUPS" = None \/ env "ALLOWED_GROUPS" = Some "" ->
        shouldRespondInGroup (Env.config env) chat message = true).
Proof.
  intros env. repeat split; try apply orb_true_r.
  intros chat message Hm Ha Hl. unfold shouldRespondInGroup, Env.config.
  cbn [groupSettings respondOnlyWhenMentioned allowedGroups adminOnly
       respondToAll].
  rewrite (is_true_false _ Hm), (is_true_false _ Ha).
  destruct Hl as [-> | ->]; simpl; apply orb_true_r.
Qed.

Lemma env_cannot_switch_off_groups_witness :
  shouldRespondInGroup
    (Env.config (Env.of_list [("RESPOND_TO_ALL", "false")]))
    Sample.group (Sample.text "hello") = true.
Proof.
  apply (env_cannot_switch_off_groups
           (Env.of_list [("RESPOND_TO_ALL", "false")]));
    first [discriminate | now left].
Defined.

Lemma split_comma_not_nil (s : string) : Env.split_comma s <> [].
Proof.
  induction s as [|c s IH]; simpl; [discriminate|].
  destruct (Ascii.eqb c ","); [discriminate|].
  destruct (Env.split_comma s); discriminate.
Qed.

Lemma join_comma_cons_char (c : ascii) (piece : string)
  (pieces : list string) :
  Env.join_comma (String c piece :: pieces) =
  String c (Env.join_comma (piece :: pieces)).
Proof. destruct pieces; reflexivity. Qed.

Lemma join_split_comma (s : string) :
  Env.join_comma (Env.split_comma s) = s.
Proof.
  induction s as [|c s IH]; [reflexivity|]. simpl.
  destruct (Ascii.eqb_spec c ",") as [->|ne].
  - destruct (Env.split_comma s) as [|piece pieces] eqn:E.
    + now elim (split_comma_not_nil s).
    + change (Env.join_comma ("" :: piece :: pieces))
        with ("" ++ "," ++ Env.join_comma (piece :: pieces)).
      now rewrite IH.
  - destruct (Env.split_comma s) as [|piece pieces] eqn:E.
    + now elim (split_comma_not_nil s).
    + rewrite join_comma_cons_char. now rewrite IH.
Qed.

(** X19.  A non-empty ALLOWED_GROUPS always turns the allow-list rule on:
    the list is never empty, its pieces joined by commas give the
    variable back (nothing is trimmed or dropped), and unless mention-only
    is set a group message passes the gate exactly when its chat id is
    one of the pieces, character for character. *)
Theorem env_allow_list_is_verbatim :
  forall env v,
    env "ALLOWED_GROUPS" = Some v -> v <> "" ->
    let l := allowedGroups (groupSettings (Env.config env)) in
    l <> [] /\
    Env.join_comma l = v /\
    (forall chat message,
        env "RESPOND_ONLY_WHEN_MENTIONED" <> Some "true" ->
        (shouldRespondInGroup (Env.config env) chat message = true <->
         In (chatId chat) l)).
Proof.
  intros env v Hv Hne l.
  assert (Hl : l = Env.split_comma v).
  { subst l. unfold Env.config. cbn [groupSettings allowedGroups].
    rewrite Hv. destruct v; [now elim Hne | reflexivity]. }
  split; [rewrite Hl; apply split_comma_not_nil|].
  split; [rewrite Hl; apply join_split_comma|].
  intros chat message Hm. unfold shouldRespondInGroup.
  fold l.
  assert (Hmention : respondOnlyWhenMentioned (groupSettings (Env.config env))
                     = false).
  { unfold Env.config. cbn [groupSettings respondOnlyWhenMentioned].
    now rewrite (is_true_false _ Hm). }
  rewrite Hmention.
  destruct l as [|g l'] eqn:El.
  - symmetry in Hl. now elim (split_comma_not_nil v).
  - cbn [List.length Nat.ltb Nat.leb]. apply existsb_eqb_In.
Qed.

Lemma env_allow_list_is_verbatim_witness :
  let l :=
    allowedGroups
      (groupSettings
         (Env.config (Env.of_list [("ALLOWED_GROUPS", "a@g.us, b@g.us")])))
  in
  l <> [] /\
  Env.join_comma l = "a@g.us, b@g.us" /\
  (forall chat message,
      Env.of_list [("ALLOWED_GROUPS", "a@g.us, b@g.us")]
        "RESPOND_ONLY_WHEN_MENTIONED" <> Some "true" ->
      (shouldRespondInGroup
         (Env.config (Env.of_list [("ALLOWED_GROUPS", "a@g.us, b@g.us")]))
         chat message = true <->
       In (chatId chat) l)).
Proof.
  apply (env_allow_list_is_verbatim
           (Env.of_list [("ALLOWED_GROUPS", "a@g.us, b@g.us")])
           "a@g.us, b@g.us").
  - reflexivity.
  - discriminate.
Defined.

(* ------------------------------------------------------------------ *)
(** * Refresh and manual entries together *)

(** X20.  A refresh that fetched at least one row discards every manual
    entry made before it: the table is the one the rows alone give.  And
    refreshing again from the same fetch changes nothing, the iteration
    order included. *)
Theorem refresh_discards_manual_entries :
  forall cfg,
    (forall rows keyword reply responses,
        rows <> [] ->
        loadResponses cfg (FetchOk (Some rows))
          (addResponse keyword reply responses)
        = loadResponses cfg (FetchOk (Some rows)) responses) /\
    (forall fetch responses,
        loadResponses cfg fetch (loadResponses cfg fetch responses)
        = loadResponses cfg fetch responses).
Proof.
  intros cfg. split.
  - intros rows keyword reply responses Hne.
    now rewrite !(loadResponses_rebuild _ _ _ Hne).
  - intros fetch responses.
    destruct (loadResponses_cases cfg fetch responses)
      as [Hsame | (rows & -> & Hne & _)].
    + now rewrite !Hsame.
    + now rewrite !(loadResponses_rebuild _ _ _ Hne).
Qed.

Lemma refresh_discards_manual_entries_witness :
  loadResponses Sample.config (FetchOk (Some [["hi"; "Hello"]]))
    (addResponse "bye" "Ciao" JSMap.empty)
  = loadResponses Sample.config (FetchOk (Some [["hi"; "Hello"]]))
      JSMap.empty.
Proof.
  apply (proj1 (refresh_discards_manual_entries Sample.config)).
  discriminate.
Defined.

Lemma table_keys_distinct_witness :
  JSMap.get
    (Admin.run Sample.config
       [Admin.Add "Hi" "Hello";
        Admin.Load (Sample.rows [["cat"; "A"]; ["CAT "; "B"]]);
        Admin.Add "dog" "Woof"])
    "cat" = Some "B".
Proof.
  apply (proj2 (table_keys_distinct Sample.config
                  [Admin.Add "Hi" "Hello";
                   Admin.Load (Sample.rows [["cat"; "A"]; ["CAT "; "B"]]);
                   Admin.Add "dog" "Woof"])).
  vm_compute. left. reflexivity.
Defined.

Lemma broadcast_reaches_allowed_groups_witness :
  In (Sample.group, "News")
     (Admin.broadcastToGroups
        (with_allowedGroups ["gone@g.us"; "491700000000@c.us"; "fam@g.us"]
           Sample.config)
        (fun groupId =>
           if String.eqb groupId "fam@g.us" then Some Sample.group
           else if String.eqb groupId "491700000000@c.us"
                then Some Sample.direct else None)
        "News").
Proof.
  apply (proj1 (broadcast_reaches_allowed_groups
                  (with_allowedGroups
                     ["gone@g.us"; "491700000000@c.us"; "fam@g.us"]
                     Sample.config)
                  (fun groupId =>
                     if String.eqb groupId "fam@g.us" then Some Sample.group
                     else if String.eqb groupId "491700000000@c.us"
                          then Some Sample.direct else None)
                  "News")).
  repeat split. exists "fam@g.us". split; [|reflexivity].
  simpl. right. right. left. reflexivity.
Defined.

(* ------------------------------------------------------------------ *)
(** * Placeholder-like text that is no token *)

Lemma includes_char_cons (x y : ascii) (p : string) :
  includes (String y p) (String x "") =
  (if ascii_dec x y then true else false) || includes p (String x "").
Proof.
  rewrite includes_unfold, prefix_cons.
  destruct (ascii_dec x y); [now rewrite prefix_empty | reflexivity].
Qed.

Lemma no_char_cons (x y : ascii) (p : string) :
  includes (String y p) (String x "") = false ->
  x <> y /\ includes p (String x "") = false.
Proof.
  rewrite includes_char_cons. intros H.
  apply orb_false_iff in H as [Hx Hp].
  destruct (ascii_dec x y); [discriminate | now split].
Qed.

Lemma no_char_append (x : ascii) (a b : string) :
  includes a (String x "") = false -> includes b (String x "") = false ->
  includes (a ++ b) (String x "") = false.
Proof.
  intros Ha Hb. induction a as [|y a IH]; [exact Hb|].
  apply no_char_cons in Ha as [Hne Ha]. cbn [append].
  rewrite includes_char_cons, (IH Ha).
  now destruct (ascii_dec x y).
Qed.

(** A pattern in which [x] does not occur cannot reach into a text that
    begins with [x]. *)
Lemma prefix_stops_before (x : ascii) (r : string) :
  forall a p,
    includes p (String x "") = false ->
    String.prefix p (a ++ String x r) = String.prefix p a.
Proof.
  induction a as [|z a IH]; intros p Hp.
  - destruct p as [|y p]; [reflexivity|].
    apply no_char_cons in Hp as [Hne _]. cbn [append].
    rewrite prefix_cons. destruct (ascii_dec y x); [congruence | reflexivity].
  - destruct p as [|y p]; [reflexivity|].
    apply no_char_cons in Hp as [_ Hp]. cbn [append].
    rewrite !prefix_cons. destruct (ascii_dec y z); [now apply IH | reflexivity].
Qed.

Lemma prefix_length (p : string) :
  forall s, String.prefix p s = true -> String.length p <= String.length s.
Proof.
  induction p as [|y p IH]; intros s H; [simpl; lia|].
  destruct s as [|z s]; [discriminate|].
  rewrite prefix_cons in H. destruct (ascii_dec y z); [|discriminate].
  simpl. apply IH in H. lia.
Qed.

(** Two braced texts without inner closing brace match only if equal. *)
Lemma prefix_closed_differs (c : string) :
  forall l w,
    includes l "}" = false -> includes w "}" = false -> l <> w ->
    String.prefix (l ++ "}") (w ++ "}" ++ c) = false.
Proof.
  induction l as [|x l IH]; intros w Hl Hw Hne.
  - destruct w as [|y w]; [now elim Hne|].
    apply no_char_cons in Hw as [Hy _]. cbn [append].
    rewrite prefix_cons. destruct (ascii_dec "}" y); [congruence | reflexivity].
  - apply no_char_cons in Hl as [Hx Hl].
    destruct w as [|y w]; cbn [append]; rewrite prefix_cons.
    + destruct (ascii_dec x "}"); [congruence | reflexivity].
    + apply no_char_cons in Hw as [_ Hw].
      destruct (ascii_dec x y) as [->|]; [|reflexivity].
      apply IH; [exact Hl | exact Hw | congruence].
Qed.

Section TokenPass.

(** One pass for the token [{l}] with any value [v], over a text that
    holds [{w}], where [l] and [w] are free of braces and differ. *)
Variables (tok l v u w : string).
Hypothesis Htok : tok = String "{" (l ++ "}").
Hypothesis Hu : u = String "{" (w ++ "}").
Hypothesis Hl_open : includes l "{" = false.
Hypothesis Hl_close : includes l "}" = false.
Hypothesis Hw_open : includes w "{" = false.
Hypothesis Hw_close : includes w "}" = false.
Hypothesis Hne : l <> w.

Lemma token_body_no_open : includes (l ++ "}") "{" = false.
Proof. now apply no_char_append. Qed.

Lemma replaceScan_copy :
  forall pre rest b,
    includes pre "{" = false ->
    replaceScan tok v b 0 (pre ++ rest) =
    pre ++ replaceScan tok v (b ++ pre) 0 rest.
Proof.
  induction pre as [|c pre IH]; intros rest b Hpre.
  - now rewrite append_empty_r.
  - apply no_char_cons in Hpre as [Hc Hpre]. cbn [append].
    rewrite replaceScan_cons. rewrite Htok at 1. rewrite prefix_cons.
    destruct (ascii_dec "{" c); [congruence|]. f_equal.
    rewrite (IH _ _ Hpre), append_assoc. reflexivity.
Qed.

Lemma scan_unrecognized (c b : string) :
  replaceScan tok v b 0 (u ++ c) = u ++ replaceScan tok v (b ++ u) 0 c.
Proof.
  rewrite Hu. cbn [append]. rewrite replaceScan_cons.
  rewrite Htok at 1. rewrite prefix_cons.
  destruct (ascii_dec "{" "{") as [_|ne]; [|now elim ne].
  rewrite append_assoc, (prefix_closed_differs c l w Hl_close Hw_close Hne).
  f_equal. rewrite <- append_assoc, replaceScan_copy.
  - now rewrite (append_assoc b "{" (w ++ "}")).
  - now apply no_char_append.
Qed.

Lemma prefix_token_straddle (x : ascii) (a c : string) :
  String.prefix tok (String x (a ++ u ++ c)) = String.prefix tok (String x a).
Proof.
  rewrite Htok, Hu, !prefix_cons. destruct (ascii_dec "{" x); [|reflexivity].
  cbn [append]. apply prefix_stops_before, token_body_no_open.
Qed.

(** The pass leaves [{w}] where it is. *)
Lemma replaceScan_keeps (c : string) :
  forall a b k,
    k <= String.length a ->
    exists A C, replaceScan tok v b k (a ++ u ++ c) = A ++ u ++ C.
Proof.
  induction a as [|x a IH]; intros b k Hk.
  - assert (k = 0) by (simpl in Hk; lia). subst k. cbn [append].
    rewrite scan_unrecognized. now exists "", (replaceScan tok v (b ++ u) 0 c).
  - cbn [append]. destruct k as [|k].
    + rewrite replaceScan_cons, prefix_token_straddle.
      destruct (String.prefix tok (String x a)) eqn:Hp.
      * apply prefix_length in Hp. simpl in Hp.
        destruct (IH (b ++ String x "") (String.length tok - 1))
          as (A & C & E); [lia|].
        rewrite E. eexists (_ ++ A), C. now rewrite append_assoc.
      * destruct (IH (b ++ String x "") 0) as (A & C & E); [lia|].
        rewrite E. now exists (String x A), C.
    + cbn [replaceScan]. apply IH. simpl in Hk. lia.
Qed.

(** With a value free of dollar signs the pass works on the two sides of
    [{w}] separately. *)
Lemma replaceScan_splits (c : string) :
  includes v "$" = false ->
  forall a b k,
    k <= String.length a ->
    replaceScan tok v b k (a ++ u ++ c) =
    replaceScan tok v b k a ++ u ++ replaceScan tok v "" 0 c.
Proof.
  intros Hplain. induction a as [|x a IH]; intros b k Hk.
  - assert (k = 0) by (simpl in Hk; lia). subst k. cbn [append replaceScan].
    rewrite scan_unrecognized.
    now rewrite (replaceScan_plain_before _ _ Hplain c (b ++ u) "").
  - cbn [append]. destruct k as [|k].
    + rewrite !replaceScan_cons, prefix_token_straddle.
      destruct (String.prefix tok (String x a)) eqn:Hp.
      * apply prefix_length in Hp. simpl in Hp.
        rewrite !(getSubstitution_plain _ _ _ _ Hplain).
        rewrite IH by lia. now rewrite append_assoc.
      * now rewrite IH by lia.
    + cbn [replaceScan]. apply IH. simpl in Hk. lia.
Qed.

End TokenPass.

Lemma brace_free_parts (w : string) :
  brace_free w = true ->
  includes w "{" = false /\ includes w "}" = false.
Proof.
  unfold brace_free. intros H. apply andb_true_iff in H as [H1 H2].
  split; now apply negb_true_iff.
Qed.

Lemma unrecognized_parts (w : string) :
  unrecognized w = true ->
  brace_free w = true /\
  forall l, In (placeholder_like l) placeholders -> l <> w.
Proof.
  unfold unrecognized. intros H. apply andb_true_iff in H as [Hb Hn].
  split; [exact Hb|]. intros l Hin ->.
  apply negb_true_iff in Hn. apply existsb_eqb_In in Hin. congruence.
Qed.

(** Every key of [replacements] is a token [{l}] with [l] free of braces. *)
Lemma replacements_tokens (contact : Contact) (message : Message)
  (chat : Chat) (now : Clock) (e : string * string) :
  In e (replacements contact message chat now) ->
  exists l, fst e = placeholder_like l /\ brace_free l = true /\
            In (placeholder_like l) placeholders.
Proof.
  unfold replacements. cbn [In].
  intros [<- | [<- | [<- | [<- | [<- | [<- | [<- | []]]]]]]].
  - exists "name". repeat split. cbn. auto 10.
  - exists "time". repeat split. cbn. auto 10.
  - exists "date". repeat split. cbn. auto 10.
  - exists "phone". repeat split. cbn. auto 10.
  - exists "message". repeat split. cbn. auto 10.
  - exists "group". repeat split. cbn. auto 10.
  - exists "memberCount". repeat split. cbn. auto 10.
Qed.

Section UnrecognizedText.

Variable w : string.
Hypothesis Hw : brace_free w = true.

Variable reps : list (string * string).
Hypothesis Hreps :
  forall e, In e reps ->
            exists l, fst e = placeholder_like l /\ brace_free l = true /\
                      l <> w.

(** A run of passes leaves [{w}] in the text. *)
Lemma passes_keep :
  forall a c,
    exists A C,
      fold_left replace_step reps (a ++ placeholder_like w ++ c)
      = A ++ placeholder_like w ++ C.
Proof.
  destruct (brace_free_parts _ Hw) as [Hwo Hwc].
  induction reps as [|e reps' IH]; intros a c; [now exists a, c|].
  destruct (Hreps e (or_introl eq_refl)) as (l & Hl & Hbf & Hne).
  destruct (brace_free_parts _ Hbf) as [Hlo Hlc].
  cbn [fold_left]. unfold replace_step at 2, replaceAll.
  destruct (replaceScan_keeps (fst e) l (snd e) (placeholder_like w) w
              Hl eq_refl Hlo Hlc Hwo Hwc Hne c a "" 0) as (A & C & E);
    [lia|].
  rewrite E. apply IH. intros e' He'. apply Hreps. now right.
Qed.

(** With values free of dollar signs, a run of passes treats the text
    before [{w}] and the text behind it separately. *)
Lemma passes_split :
  plain_values reps = true ->
  forall a c,
    fold_left replace_step reps (a ++ placeholder_like w ++ c)
    = fold_left replace_step reps a ++ placeholder_like w
        ++ fold_left replace_step reps c.
Proof.
  destruct (brace_free_parts _ Hw) as [Hwo Hwc].
  induction reps as [|e reps' IH]; intros Hplain a c; [reflexivity|].
  destruct (Hreps e (or_introl eq_refl)) as (l & Hl & Hbf & Hne).
  destruct (brace_free_parts _ Hbf) as [Hlo Hlc].
  cbn [plain_values forallb] in Hplain.
  apply andb_true_iff in Hplain as [Hv Hrest].
  apply negb_true_iff in Hv.
  cbn [fold_left]. unfold replace_step at 2 4 6, replaceAll.
  rewrite (replaceScan_splits (fst e) l (snd e) (placeholder_like w) w
             Hl eq_refl Hlo Hlc Hwo Hwc Hne c Hv a "" 0) by lia.
  apply IH; [|exact Hrest]. intros e' He'. apply Hreps. now right.
Qed.

End UnrecognizedText.



(* ------------------------------------------------------------------ *)
(** * A partial match with a blank reply *)

(** C2 (the code departs from the claim).  Rows [cat -> " "] (a reply
    cell holding one space) and [category -> B] pass the test of line 59;
    the first is stored as [cat -> ""].  The body [category sale] has no
    exact match, and the first entry in insertion order whose key occurs
    in it is the one of [cat].  The scan stops there with the empty
    reply, line 139 takes it for no reply, and the bot sends the default
    reply, or nothing when none is configured: the reply of the first
    matching entry is not what resolution returns. *)
Theorem partial_match_blank_reply_dropped :
  let responses :=
    loadResponses Sample.config
      (Sample.rows [["cat"; " "]; ["category"; "B"]]) JSMap.empty in
  JSMap.entries responses = [("cat", ""); ("category", "B")] /\
  JSMap.get responses (normalize "category sale") = None /\
  find (fun e => includes (normalize "category sale") (fst e))
       (JSMap.entries responses) = Some ("cat", "") /\
  lookupReply responses (normalize "category sale") = Some "" /\
  handleMessage Sample.config responses Sample.now
    (Sample.text "category sale") Sample.ann Sample.direct
  = DefaultReplied "Sorry, I did not get that." /\
  handleMessage Sample.config_mention responses Sample.now
    (Sample.text "category sale") Sample.ann Sample.direct = NoReply.
Proof. vm_compute. repeat split. Qed.
